(** * Concordance: word counts and statistics over plaintext

    A shallow embedding of [concordance.go].  The source file holds two
    variants of the library, one after the other; they are embedded as the
    modules [V1] (lines 1-177) and [V2] (lines 178-340).  The types
    [WordTuple] and [Concordance] are declared identically in both and are
    shared here, so that results of the two variants can be compared.

    Conventions.
    - A Go [int] is a [Z]; every arithmetic operation whose result is stored
      in an [int] goes through [wrap64].  Indices and lengths that the code
      only compares with [len] are [nat].
    - A Go [string] is a [string] of bytes ([ascii]); [s[i]] is a byte read
      as a number in 0..255.
    - A computation that may panic (index or slice out of range) or loop
      forever returns an [outcome].
    - What the code takes from the Go runtime and standard library (map
      iteration order, [sort.Sort], [strings.ToLower], the growth of a full
      slice) is the interface [GoRuntime], specified by its documented
      contract. *)

From Stdlib Require Import ZArith List String Ascii Lia Permutation Sorted Bool.
From stdpp Require Import gmap strings list fin_maps.

Local Open Scope Z_scope.

(** ** Outcomes of a Go computation *)

Inductive outcome (A : Type) : Type :=
| Ok (a : A)
| Panic
| Diverges.

Arguments Ok {A} a.
Arguments Panic {A}.
Arguments Diverges {A}.

Definition bind {A B : Type} (x : outcome A) (f : A -> outcome B) : outcome B :=
  match x with
  | Ok a => f a
  | Panic => Panic
  | Diverges => Diverges
  end.

Notation "'do' x <- e ; k" := (bind e (fun x => k))
  (at level 10, x pattern, e at level 100, k at level 200).

Definition omap {A B : Type} (f : A -> B) (x : outcome A) : outcome B :=
  do a <- x; Ok (f a).

(** ** Machine integers *)

(** The value an [int] holds after an arithmetic result [z] is stored in it
    (two's complement, 64 bits). *)
Definition wrap64 (z : Z) : Z := (z + 2 ^ 63) mod 2 ^ 64 - 2 ^ 63.

(** ** Strings as byte sequences *)

(** [s[i]]: panics when [i] is out of range. *)
Definition byteAt (s : string) (i : nat) : outcome Z :=
  match String.get i s with
  | Some c => Ok (Z.of_nat (nat_of_ascii c))
  | None => Panic
  end.

(** [s[lo:hi]]: panics unless [lo <= hi <= len(s)]. *)
Definition sliceString (s : string) (lo hi : nat) : outcome string :=
  if ((lo <=? hi) && (hi <=? String.length s))%nat
  then Ok (substring lo (hi - lo) s)
  else Panic.

Fixpoint mapString (f : ascii -> ascii) (s : string) : string :=
  match s with
  | EmptyString => EmptyString
  | String c r => String (f c) (mapString f r)
  end.

Fixpoint allBytes (p : ascii -> bool) (s : string) : bool :=
  match s with
  | EmptyString => true
  | String c r => p c && allBytes p r
  end.

(** [c < utf8.RuneSelf] *)
Definition isASCIIByte (c : ascii) : bool := (nat_of_ascii c <? 128)%nat.

(** The ASCII path of [strings.ToLower]: ['A'..'Z'] moves to ['a'..'z']. *)
Definition lowerByte (c : ascii) : ascii :=
  if ((65 <=? nat_of_ascii c) && (nat_of_ascii c <=? 90))%nat
  then ascii_of_nat (nat_of_ascii c + 32)
  else c.

(** ** Slices *)

(** A slice whose start is the start of its backing array: [arr] is the
    array up to the capacity, [slen] the length.  All slices of the program
    are of this shape ([make], [append], [s[:n]]). *)
Record slice (A : Type) : Type := mkSlice { arr : list A; slen : nat }.

Arguments mkSlice {A} arr slen.
Arguments arr {A} s.
Arguments slen {A} s.

Definition cap {A : Type} (s : slice A) : nat := length (arr s).

(** The elements a program can read: [s[0..len)]. *)
Definition elems {A : Type} (s : slice A) : list A := take (slen s) (arr s).

Definition slice_wf {A : Type} (s : slice A) : Prop := (slen s <= cap s)%nat.

(** [make([]A, 0, c)]: panics on a negative capacity. *)
Definition makeCap {A : Type} (zero : A) (c : Z) : outcome (slice A) :=
  if c <? 0 then Panic else Ok (mkSlice (replicate (Z.to_nat c) zero) 0).

(** [make([]int, n)]: panics on a negative length. *)
Definition makeInts (n : Z) : outcome (list Z) :=
  if n <? 0 then Panic else Ok (replicate (Z.to_nat n) 0).

(** [s[:n]]: panics unless [0 <= n <= cap(s)]; within the capacity it may
    lengthen the slice. *)
Definition reslice {A : Type} (s : slice A) (n : Z) : outcome (slice A) :=
  if (n <? 0) || (Z.of_nat (cap s) <? n) then Panic
  else Ok (mkSlice (arr s) (Z.to_nat n)).

(** [l[:n]] on a slice whose capacity is its length. *)
Definition resliceList {A : Type} (l : list A) (n : nat) : outcome (list A) :=
  if (n <=? length l)%nat then Ok (take n l) else Panic.

(** [l[i] = v] *)
Definition store {A : Type} (l : list A) (i : nat) (v : A) : outcome (list A) :=
  if (i <? length l)%nat then Ok (<[i:=v]> l) else Panic.

(** [l[i]++] *)
Definition incr (l : list Z) (i : nat) : outcome (list Z) :=
  match l !! i with
  | Some v => Ok (<[i:=wrap64 (v + 1)]> l)
  | None => Panic
  end.

(** ** The data model *)

Record WordTuple : Type := mkWordTuple { Word : string; Count : Z }.

Definition zeroWordTuple : WordTuple := mkWordTuple "" 0.

Record Concordance : Type := mkConcordance {
  Counts : gmap string Z;
  Total : Z;
  Unique : Z;
  MostUsed : slice WordTuple;
  LengthHistogram : list Z
}.

(** [&Concordance{}] *)
Definition zeroConcordance : Concordance :=
  mkConcordance ∅ 0 0 (mkSlice [] 0) [].

(** ** The Go runtime and library the code calls *)

(** What [sort.Sort] asks of [Less]. *)
Definition StrictWeakOrder {A : Type} (less : A -> A -> bool) : Prop :=
  (forall a, less a a = false) /\
  (forall a b c, less a b = true -> less b c = true -> less a c = true) /\
  (forall a b c, less a b = false -> less b c = false -> less a c = false).

(** [sort.IsSorted]: no element is [Less] than the one before it. *)
Definition IsSorted {A : Type} (less : A -> A -> bool) (l : list A) : Prop :=
  Sorted (fun a b => less b a = false) l.

(** The three bytes of U+212A KELVIN SIGN in UTF-8. *)
Definition kelvinSign : string :=
  String (ascii_of_nat 226) (String (ascii_of_nat 132) (String (ascii_of_nat 170) EmptyString)).

Class GoRuntime : Type := {
  (** [for k, v := range m]: the entries of [m], once each, in an order
      the language leaves open. *)
  mapRange : gmap string Z -> list (string * Z);
  mapRange_perm : forall m, mapRange m ≡ₚ map_to_list m;
  (** [sort.Sort]: rearranges the elements so that [sort.IsSorted] holds;
      not guaranteed stable. *)
  sortSort : forall A : Type, (A -> A -> bool) -> list A -> list A;
  sortSort_perm : forall A (less : A -> A -> bool) l, sortSort A less l ≡ₚ l;
  sortSort_sorted : forall A (less : A -> A -> bool) l,
    StrictWeakOrder less -> IsSorted less (sortSort A less l);
  (** [strings.ToLower]: on a string of ASCII bytes it lowers ['A'..'Z']
      byte by byte; otherwise it maps [unicode.ToLower] over the runes,
      which sends U+212A to ['k']. *)
  stringsToLower : string -> string;
  stringsToLower_ascii : forall s,
    allBytes isASCIIByte s = true -> stringsToLower s = mapString lowerByte s;
  stringsToLower_kelvin : stringsToLower kelvinSign = "k"%string;
  (** The capacity [append] gives a full slice of capacity [c]. *)
  growslice : nat -> nat;
  growslice_gt : forall c, (c < growslice c)%nat
}.

(** [append(s, x)] *)
Definition append `{GoRuntime} {A : Type} (zero : A) (s : slice A) (x : A) : slice A :=
  if (slen s <? cap s)%nat
  then mkSlice (<[slen s:=x]> (arr s)) (S (slen s))
  else mkSlice (elems s ++ x :: replicate (growslice (cap s) - S (slen s)) zero)
               (S (slen s)).

(** [sort.Sort] runs on the elements of the slice, in place. *)
Definition sortSlice `{GoRuntime} {A : Type} (less : A -> A -> bool) (s : slice A) : slice A :=
  mkSlice (sortSort A less (elems s) ++ drop (slen s) (arr s)) (slen s).

(** [sort.Reverse]: [Less(i, j)] of the wrapper is [Less(j, i)] of the
    wrapped value. *)
Definition sortReverse {A : Type} (less : A -> A -> bool) : A -> A -> bool :=
  fun a b => less b a.

(** The local variables of the scrubber ([ScrubWord] in the first variant,
    [scrubWord] in the second); [idx] is the variable [i]. *)
Record scrubState : Type := mkScrub {
  minAlpha : nat;
  maxAlpha : nat;
  anyAlpha : bool;
  idx : nat
}.

(** ** First variant (lines 1-177) *)

Module V1.

(** [ByCount.Len] *)
Definition Len (s : list WordTuple) : nat := length s.

(** [ByCount.Swap(i, j)]: [s[i], s[j] = s[j], s[i]]. *)
Definition Swap (s : list WordTuple) (i j : nat) : outcome (list WordTuple) :=
  match s !! i, s !! j with
  | Some a, Some b => Ok (<[j:=a]> (<[i:=b]> s))
  | _, _ => Panic
  end.

(** [ByCount.Less(i, j)], on the elements the two indices select. *)
Definition Less (a b : WordTuple) : bool := Count a <? Count b.

Definition inRange (n lo hi : Z) : bool := (lo <=? n) && (n <=? hi).

Definition alphaChar (r : Z) : bool := inRange r 65 90 || inRange r 97 122.

(** First loop: find the first alphabetic character. *)
Fixpoint findFirst (fuel : nat) (s : string) (st : scrubState) : outcome scrubState :=
  if (idx st <? String.length s)%nat then
    match fuel with
    | O => Diverges
    | S fuel' =>
        do c <- byteAt s (idx st);
        if alphaChar c
        then Ok (mkScrub (idx st) (maxAlpha st) true (idx st))
        else findFirst fuel' s (mkScrub (minAlpha st) (maxAlpha st) (anyAlpha st) (S (idx st)))
    end
  else Ok st.

(** Second loop: find the last alphabetic character. *)
Fixpoint findLast (fuel : nat) (s : string) (st : scrubState) : outcome scrubState :=
  if (idx st <? String.length s)%nat then
    match fuel with
    | O => Diverges
    | S fuel' =>
        do c <- byteAt s (idx st);
        let st' :=
          if alphaChar c
          then mkScrub (minAlpha st) (idx st) true (idx st)
          else st in
        findLast fuel' s (mkScrub (minAlpha st') (maxAlpha st') (anyAlpha st') (S (idx st')))
    end
  else Ok st.

Definition ScrubWord (s : string) : outcome string :=
  do st1 <- findFirst (String.length s) s (mkScrub 0 0 false 0);
  do st2 <- findLast (String.length s) s st1;
  if anyAlpha st2
  then sliceString s (minAlpha st2) (maxAlpha st2 + 1)
  else Ok ""%string.

Section Runtime.
Context `{rt : GoRuntime}.

(** The word one token is counted under: the body of the scanning loop up
    to the assignment of [word]. *)
Definition scanWord (caseSensitive : bool) (text : string) : outcome string :=
  if caseSensitive
  then ScrubWord text
  else ScrubWord (stringsToLower text).

(** The loop [for scanner.Scan()] over the tokens the scanner yields. *)
Fixpoint scanLoop (caseSensitive : bool) (tokens : list string)
    (m : gmap string Z) (total : Z) : outcome (gmap string Z * Z) :=
  match tokens with
  | [] => Ok (m, total)
  | text :: rest =>
      do word <- scanWord caseSensitive text;
      scanLoop caseSensitive rest
        (<[word:=wrap64 (default 0 (m !! word) + 1)]> m)
        (wrap64 (total + 1))
  end.

Definition WordCount (tokens : list string) (caseSensitive : bool)
    : outcome (gmap string Z * Z) :=
  do r <- scanLoop caseSensitive tokens ∅ 0;
  Ok (delete ""%string (fst r), snd r).

(** [for newlen < wordlen { newlen *= 2 }].  Sixty-five rounds decide the
    loop: by then [newlen] has been doubled 64 times and is 0 for good. *)
Fixpoint growLen (fuel : nat) (newlen wordlen : Z) : outcome Z :=
  if newlen <? wordlen then
    match fuel with
    | O => Diverges
    | S fuel' => growLen fuel' (wrap64 (newlen * 2)) wordlen
    end
  else Ok newlen.

(** [for i, v := range old { newHist[i] = v }], from index [i] on. *)
Fixpoint copyLoop (old : list Z) (i : nat) (newHist : list Z) : outcome (list Z) :=
  match old with
  | [] => Ok newHist
  | v :: rest =>
      do newHist' <- store newHist i v;
      copyLoop rest (S i) newHist'
  end.

(** The histogram part of the loop body of [process], for a word of
    length [wordlen]. *)
Definition histStep (hist : list Z) (wordlen : nat) : outcome (list Z) :=
  if (length hist <=? wordlen)%nat then
    do newlen <- growLen 65 (wrap64 (2 * Z.of_nat (length hist))) (Z.of_nat wordlen);
    do newHist <- makeInts (wrap64 (2 * Z.of_nat (length hist)));
    do newHist' <- copyLoop hist 0 newHist;
    incr newHist' wordlen
  else incr hist wordlen.

(** The loop [for k, v := range c.Counts] of [process], over the entries in
    the order the runtime yields them. *)
Fixpoint rangeLoop (entries : list (string * Z)) (mu : slice WordTuple)
    (hist : list Z) : outcome (slice WordTuple * list Z) :=
  match entries with
  | [] => Ok (mu, hist)
  | kv :: rest =>
      let mu' := append zeroWordTuple mu (mkWordTuple (fst kv) (snd kv)) in
      do hist' <- histStep hist (String.length (fst kv));
      rangeLoop rest mu' hist'
  end.

(** The loop of [trimHist]: the last index whose value is positive. *)
Fixpoint maxLoop (h : list Z) (i : nat) (max : nat) : nat :=
  match h with
  | [] => max
  | v :: rest => maxLoop rest (S i) (if 0 <? v then i else max)
  end.

Definition trimHist (c : Concordance) : outcome Concordance :=
  let max := maxLoop (LengthHistogram c) 0 0 in
  do h <- resliceList (LengthHistogram c) (max + 1);
  Ok (mkConcordance (Counts c) (Total c) (Unique c) (MostUsed c) h).

Definition process (c : Concordance) : outcome Concordance :=
  do hist <- makeInts 64;
  do mu <- makeCap zeroWordTuple (Unique c);
  do r <- rangeLoop (mapRange (Counts c)) mu hist;
  let mu' := sortSlice (sortReverse Less) (fst r) in
  trimHist (mkConcordance (Counts c) (Total c) (Unique c) mu' (snd r)).

Definition TruncateTopWords (n : Z) (c : Concordance) : outcome Concordance :=
  if (0 <? n) && (n <? Z.of_nat (slen (MostUsed c)))
  then
    do mu <- reslice (MostUsed c) n;
    Ok (mkConcordance (Counts c) (Total c) (Unique c) mu (LengthHistogram c))
  else Ok c.

Definition NewConcordance (tokens : list string) (caseSensitive : bool)
    (topWords : Z) : outcome Concordance :=
  do r <- WordCount tokens caseSensitive;
  let c := mkConcordance (fst r) (snd r) (Z.of_nat (size (fst r)))
             (MostUsed zeroConcordance) (LengthHistogram zeroConcordance) in
  do c' <- process c;
  TruncateTopWords topWords c'.

End Runtime.

End V1.

(** ** Second variant (lines 178-340) *)

Module V2.

(** [ByCount.Len] *)
Definition Len (s : list WordTuple) : nat := length s.

(** [ByCount.Swap(i, j)]: [s[i], s[j] = s[j], s[i]]. *)
Definition Swap (s : list WordTuple) (i j : nat) : outcome (list WordTuple) :=
  match s !! i, s !! j with
  | Some a, Some b => Ok (<[j:=a]> (<[i:=b]> s))
  | _, _ => Panic
  end.

(** [ByCount.Less(i, j)], on the elements the two indices select. *)
Definition Less (a b : WordTuple) : bool := Count a <? Count b.

Definition inRange (n lo hi : Z) : bool := (lo <=? n) && (n <=? hi).

Definition alphaChar (r : Z) : bool := inRange r 65 90 || inRange r 97 122.

(** First loop: find the first alphabetic character. *)
Fixpoint findFirst (fuel : nat) (s : string) (st : scrubState) : outcome scrubState :=
  if (idx st <? String.length s)%nat then
    match fuel with
    | O => Diverges
    | S fuel' =>
        do c <- byteAt s (idx st);
        if alphaChar c
        then Ok (mkScrub (idx st) (maxAlpha st) true (idx st))
        else findFirst fuel' s (mkScrub (minAlpha st) (maxAlpha st) (anyAlpha st) (S (idx st)))
    end
  else Ok st.

(** Second loop: find the last alphabetic character. *)
Fixpoint findLast (fuel : nat) (s : string) (st : scrubState) : outcome scrubState :=
  if (idx st <? String.length s)%nat then
    match fuel with
    | O => Diverges
    | S fuel' =>
        do c <- byteAt s (idx st);
        let st' :=
          if alphaChar c
          then mkScrub (minAlpha st) (idx st) true (idx st)
          else st in
        findLast fuel' s (mkScrub (minAlpha st') (maxAlpha st') (anyAlpha st') (S (idx st')))
    end
  else Ok st.

Definition scrubWord (s : string) : outcome string :=
  do st1 <- findFirst (String.length s) s (mkScrub 0 0 false 0);
  do st2 <- findLast (String.length s) s st1;
  if anyAlpha st2
  then sliceString s (minAlpha st2) (maxAlpha st2 + 1)
  else Ok ""%string.

Section Runtime.
Context `{rt : GoRuntime}.

(** The word one token is counted under: the body of the scanning loop up
    to the assignment of [word]. *)
Definition scanWord (caseSensitive : bool) (text : string) : outcome string :=
  if caseSensitive
  then scrubWord text
  else scrubWord (stringsToLower text).

(** The loop [for scanner.Scan()] over the tokens the scanner yields. *)
Fixpoint scanLoop (caseSensitive : bool) (tokens : list string)
    (m : gmap string Z) (total : Z) : outcome (gmap string Z * Z) :=
  match tokens with
  | [] => Ok (m, total)
  | text :: rest =>
      do word <- scanWord caseSensitive text;
      scanLoop caseSensitive rest
        (<[word:=wrap64 (default 0 (m !! word) + 1)]> m)
        (wrap64 (total + 1))
  end.

Definition WordCount (tokens : list string) (caseSensitive : bool)
    : outcome (gmap string Z * Z) :=
  do r <- scanLoop caseSensitive tokens ∅ 0;
  Ok (delete ""%string (fst r), snd r).

(** [for newlen < wordlen { newlen *= 2 }].  Sixty-five rounds decide the
    loop: by then [newlen] has been doubled 64 times and is 0 for good. *)
Fixpoint growLen (fuel : nat) (newlen wordlen : Z) : outcome Z :=
  if newlen <? wordlen then
    match fuel with
    | O => Diverges
    | S fuel' => growLen fuel' (wrap64 (newlen * 2)) wordlen
    end
  else Ok newlen.

(** [for i, v := range old { newHist[i] = v }], from index [i] on. *)
Fixpoint copyLoop (old : list Z) (i : nat) (newHist : list Z) : outcome (list Z) :=
  match old with
  | [] => Ok newHist
  | v :: rest =>
      do newHist' <- store newHist i v;
      copyLoop rest (S i) newHist'
  end.

(** The histogram part of the loop body of [process], for a word of
    length [wordlen]. *)
Definition histStep (hist : list Z) (wordlen : nat) : outcome (list Z) :=
  if (length hist <=? wordlen)%nat then
    do newlen <- growLen 65 (wrap64 (2 * Z.of_nat (length hist))) (Z.of_nat wordlen);
    do newHist <- makeInts (wrap64 (2 * Z.of_nat (length hist)));
    do newHist' <- copyLoop hist 0 newHist;
    incr newHist' wordlen
  else incr hist wordlen.

(** The loop [for k, v := range c.Counts] of [process], over the entries in
    the order the runtime yields them. *)
Fixpoint rangeLoop (entries : list (string * Z)) (mu : slice WordTuple)
    (hist : list Z) : outcome (slice WordTuple * list Z) :=
  match entries with
  | [] => Ok (mu, hist)
  | kv :: rest =>
      let mu' := append zeroWordTuple mu (mkWordTuple (fst kv) (snd kv)) in
      do hist' <- histStep hist (String.length (fst kv));
      rangeLoop rest mu' hist'
  end.

(** The loop of [trimHist]: the last index whose value is positive. *)
Fixpoint maxLoop (h : list Z) (i : nat) (max : nat) : nat :=
  match h with
  | [] => max
  | v :: rest => maxLoop rest (S i) (if 0 <? v then i else max)
  end.

Definition trimHist (c : Concordance) : outcome Concordance :=
  let max := maxLoop (LengthHistogram c) 0 0 in
  do h <- resliceList (LengthHistogram c) (max + 1);
  Ok (mkConcordance (Counts c) (Total c) (Unique c) (MostUsed c) h).

Definition process (c : Concordance) : outcome Concordance :=
  do hist <- makeInts 64;
  do mu <- makeCap zeroWordTuple (Unique c);
  do r <- rangeLoop (mapRange (Counts c)) mu hist;
  let mu' := sortSlice (sortReverse Less) (fst r) in
  trimHist (mkConcordance (Counts c) (Total c) (Unique c) mu' (snd r)).

Definition TruncateTopWords (n : Z) (c : Concordance) : outcome Concordance :=
  do mu <- reslice (MostUsed c) n;
  Ok (mkConcordance (Counts c) (Total c) (Unique c) mu (LengthHistogram c)).

Definition NewConcordance (tokens : list string) (caseSensitive : bool)
    (topwords : Z) : outcome Concordance :=
  do r <- WordCount tokens caseSensitive;
  let c := mkConcordance (fst r) (snd r) (Z.of_nat (size (fst r)))
             (MostUsed zeroConcordance) (LengthHistogram zeroConcordance) in
  do c' <- process c;
  TruncateTopWords topwords c'.

End Runtime.

End V2.

(** ** Vocabulary of the statements *)

(** The byte [c] is alphabetic for the scrubber. *)
Definition isAlpha (c : ascii) : bool := V1.alphaChar (Z.of_nat (nat_of_ascii c)).

(** The byte at index [i] of [s] exists and is alphabetic. *)
Definition alphaAt (s : string) (i : nat) : bool :=
  match String.get i s with
  | Some c => isAlpha c
  | None => false
  end.

(** Sum of a sequence of integers. *)
Definition sumZ (l : list Z) : Z := foldr Z.add 0 l.

(** Sum of the values of a frequency map. *)
Definition sumValues (m : gmap string Z) : Z := sumZ (snd <$> map_to_list m).

(** Largest value an [int] holds. *)
Definition maxInt : Z := 2 ^ 63 - 1.

(** The token [text] is counted under the empty word. *)
Definition scrubsEmpty (rt : GoRuntime) (caseSensitive : bool) (text : string) : bool :=
  match V1.scanWord caseSensitive text with
  | Ok w => String.eqb w ""
  | _ => false
  end.

(** Number of tokens counted under the empty word. *)
Definition countEmpty (rt : GoRuntime) (caseSensitive : bool) (tokens : list string) : nat :=
  length (filter (fun t => scrubsEmpty rt caseSensitive t = true) tokens).

(** What holds of the map and the counter of [WordCount] after [k] tokens:
    the counter is [k], the values are between 1 and [k] and add up to [k]. *)
Definition scanInv (m : gmap string Z) (total : Z) (k : nat) : Prop :=
  total = Z.of_nat k /\
  sumValues m = Z.of_nat k /\
  (forall w v, m !! w = Some v -> 1 <= v <= Z.of_nat k).

(** The slot of [hist] at index [n], zero beyond its end. *)
Definition slot (hist : list Z) (n : nat) : Z := default 0 (hist !! n).

(** Number of entries whose key has [n] bytes. *)
Definition countLen (n : nat) (entries : list (string * Z)) : nat :=
  length (filter (fun kv => String.length (fst kv) = n) entries).

(** What holds of the histogram of [process] after [k] entries. *)
Definition histInv (hist : list Z) (k : nat) : Prop :=
  Forall (fun v => 0 <= v <= Z.of_nat k) hist /\
  sumZ hist = Z.of_nat k /\
  (64 <= length hist)%nat.

(** The doubling loop with its wrap-around: [doubled i z] is [newlen]
    after [i] rounds from [z]. *)
Definition doubled (i : nat) (z : Z) : Z := Nat.iter i (fun x => wrap64 (x * 2)) z.

(** The [WordTuple] that [process] appends for a map entry. *)
Definition toWordTuple (kv : string * Z) : WordTuple := mkWordTuple (fst kv) (snd kv).

(** The concordance handed to [process]. *)
Definition counted (m : gmap string Z) (total : Z) : Concordance :=
  mkConcordance m total (Z.of_nat (size m)) (mkSlice [] 0) [].

(** The corpus of the end-to-end example of the specification. *)
Definition sampleTokens : list string := ["a"; "bb"; "bb"; "ccc"; "ccc"; "ccc"]%string.

(** A token of [k] letters a. *)
Fixpoint longWord (k : nat) : string :=
  match k with
  | O => EmptyString
  | S k' => String "a"%char (longWord k')
  end.

(** The concordance [process] builds for the corpus of the one token a. *)
Definition oneWord : Concordance :=
  mkConcordance {[ "a"%string := 1 ]} 1 1 (mkSlice [mkWordTuple "a" 1] 1) [0; 1].

(** No byte of [s] is alphabetic. *)
Definition noAlpha (s : string) : bool := allBytes (fun c => negb (isAlpha c)) s.

(** The token [text] is counted under the word [w]. *)
Definition countsAs (rt : GoRuntime) (caseSensitive : bool) (w text : string) : bool :=
  match V1.scanWord caseSensitive text with
  | Ok w' => String.eqb w' w
  | _ => false
  end.

(** Number of tokens counted under the word [w]. *)
Definition countWord (rt : GoRuntime) (caseSensitive : bool) (w : string)
    (tokens : list string) : nat :=
  length (filter (fun t => countsAs rt caseSensitive w t = true) tokens).

(** The entry of a frequency map for a word counted [n] times. *)
Definition entryOf (n : nat) : option Z :=
  if (n =? 0)%nat then None else Some (Z.of_nat n).

(** The byte [c] is not in A-Z. *)
Definition notUpper (c : ascii) : bool :=
  negb ((65 <=? nat_of_ascii c) && (nat_of_ascii c <=? 90))%nat.


(** The two bytes of U+00E9 (e with acute accent) in UTF-8. *)
Definition eAcute : string :=
  String (ascii_of_nat 195) (String (ascii_of_nat 169) EmptyString).

(** ** A reference runtime

    One implementation of [GoRuntime]: maps are ranged over in the order of
    [map_to_list], [sort.Sort] is an insertion sort, a full slice doubles.
    [refToLower] follows [strings.ToLower] on ASCII strings and on the
    Kelvin sign; the rest of the Unicode case table is not reproduced, and
    bytes outside those two cases are kept.  The instance shows that the
    interface is inhabited and lets the model run on examples. *)

Fixpoint insertBy {A : Type} (less : A -> A -> bool) (x : A) (l : list A) : list A :=
  match l with
  | [] => [x]
  | y :: r => if less x y then x :: l else y :: insertBy less x r
  end.

Definition insertionSort (A : Type) (less : A -> A -> bool) (l : list A) : list A :=
  foldr (insertBy less) [] l.

Fixpoint lowerRunes (s : string) : string :=
  match s with
  | EmptyString => EmptyString
  | String a t =>
      match t with
      | String b (String c r) =>
          if ((nat_of_ascii a =? 226) && (nat_of_ascii b =? 132) && (nat_of_ascii c =? 170))%nat
          then String "k"%char (lowerRunes r)
          else String (lowerByte a) (lowerRunes t)
      | _ => String (lowerByte a) (lowerRunes t)
      end
  end.

Definition refToLower (s : string) : string :=
  if allBytes isASCIIByte s then mapString lowerByte s else lowerRunes s.

(** * Properties *)

(** ** The reference runtime meets the interface *)

Lemma insertBy_perm {A : Type} (less : A -> A -> bool) x l :
  insertBy less x l ≡ₚ x :: l.
Proof.
  induction l as [|y r IH]; simpl; [reflexivity|].
  destruct (less x y); [reflexivity|].
  rewrite IH. apply perm_swap.
Qed.

Lemma insertionSort_perm (A : Type) (less : A -> A -> bool) l :
  insertionSort A less l ≡ₚ l.
Proof.
  induction l as [|x l IH]; simpl; [reflexivity|].
  rewrite insertBy_perm. by rewrite IH.
Qed.

Lemma insertBy_sorted {A : Type} (less : A -> A -> bool) x l :
  StrictWeakOrder less -> IsSorted less l -> IsSorted less (insertBy less x l).
Proof.
  intros (Hirr & Htr & _) Hl. unfold IsSorted in *.
  induction l as [|y r IH]; simpl.
  - repeat constructor.
  - destruct (less x y) eqn:Hxy.
    + constructor; [exact Hl|]. constructor.
      destruct (less y x) eqn:Hyx; [|reflexivity].
      rewrite <- (Hirr x). symmetry. by apply Htr with y.
    + inversion Hl as [|? ? Hr Hhd]; subst.
      constructor; [by apply IH|].
      destruct r as [|z r']; simpl.
      * by constructor.
      * destruct (less x z); constructor; [done|].
        by inversion Hhd.
Qed.

Lemma insertionSort_sorted (A : Type) (less : A -> A -> bool) l :
  StrictWeakOrder less -> IsSorted less (insertionSort A less l).
Proof.
  intros Hso. induction l as [|x l IH]; simpl.
  - constructor.
  - by apply insertBy_sorted.
Qed.

Lemma refToLower_ascii s :
  allBytes isASCIIByte s = true -> refToLower s = mapString lowerByte s.
Proof. intros H. unfold refToLower. by rewrite H. Qed.

Lemma refToLower_kelvin : refToLower kelvinSign = "k"%string.
Proof. reflexivity. Qed.

#[export] Instance refRuntime : GoRuntime := {|
  mapRange := map_to_list;
  mapRange_perm := fun m => reflexivity (map_to_list m);
  sortSort := insertionSort;
  sortSort_perm := insertionSort_perm;
  sortSort_sorted := insertionSort_sorted;
  stringsToLower := refToLower;
  stringsToLower_ascii := refToLower_ascii;
  stringsToLower_kelvin := refToLower_kelvin;
  growslice := fun c => S (2 * c)%nat;
  growslice_gt := fun c => ltac:(simpl; lia)
|}.

(** ** The two variants share every function but [TruncateTopWords] *)

Lemma V2_scrubWord_eq s : V2.scrubWord s = V1.ScrubWord s.
Proof. reflexivity. Qed.

Lemma V2_WordCount_eq (rt : GoRuntime) tokens cs :
  V2.WordCount tokens cs = V1.WordCount tokens cs.
Proof. reflexivity. Qed.

Lemma V2_trimHist_eq c : V2.trimHist c = V1.trimHist c.
Proof. reflexivity. Qed.

Lemma V2_histStep_eq hist n : V2.histStep hist n = V1.histStep hist n.
Proof. reflexivity. Qed.

Lemma V2_process_eq (rt : GoRuntime) c : V2.process c = V1.process c.
Proof. reflexivity. Qed.

(** ** Outcomes *)

Lemma bind_Ok_inv {A B : Type} (x : outcome A) (f : A -> outcome B) b :
  bind x f = Ok b -> exists a, x = Ok a /\ f a = Ok b.
Proof. destruct x; simpl; intros H; try discriminate. eauto. Qed.

Tactic Notation "bind_inv" hyp(H) "as" ident(a) ident(Ha) :=
  apply bind_Ok_inv in H; destruct H as (a & Ha & H).

(** ** Strings *)

Lemma get_Some_lt s i c : String.get i s = Some c -> (i < String.length s)%nat.
Proof.
  revert i. induction s as [|a s IH]; intros [|i] H; simpl in *; try discriminate; try lia.
  apply IH in H. lia.
Qed.

Lemma get_lt_Some s i : (i < String.length s)%nat -> exists c, String.get i s = Some c.
Proof.
  revert i. induction s as [|a s IH]; intros [|i] H; simpl in *; try lia; eauto.
  apply IH. lia.
Qed.

Lemma alphaAt_lt s i : alphaAt s i = true -> (i < String.length s)%nat.
Proof.
  unfold alphaAt. destruct (String.get i s) eqn:E; [|discriminate].
  intros _. by eapply get_Some_lt.
Qed.

Lemma length_mapString f s : String.length (mapString f s) = String.length s.
Proof. induction s; simpl; congruence. Qed.

Lemma get_mapString f s i : String.get i (mapString f s) = option_map f (String.get i s).
Proof. revert i. induction s as [|a s IH]; intros [|i]; simpl; auto. Qed.

Lemma substring_mapString f s n m :
  substring n m (mapString f s) = mapString f (substring n m s).
Proof.
  revert n m. induction s as [|a s IH]; intros [|n] [|m]; simpl; auto;
    by rewrite IH.
Qed.

Lemma length_substring s n m :
  (n + m <= String.length s)%nat -> String.length (substring n m s) = m.
Proof.
  revert n m. induction s as [|a s IH]; intros [|n] [|m] H; simpl in *; try lia;
    rewrite IH; lia.
Qed.

Lemma allBytes_substring p s n m :
  allBytes p s = true -> allBytes p (substring n m s) = true.
Proof.
  revert n m. induction s as [|a s IH]; intros [|n] [|m] H; simpl in *; auto;
    apply andb_true_iff in H as [Ha H]; rewrite ?Ha; simpl; by apply IH.
Qed.

Lemma isAlpha_range c :
  isAlpha c = true <->
  (65 <= nat_of_ascii c <= 90 \/ 97 <= nat_of_ascii c <= 122)%nat.
Proof.
  unfold isAlpha, V1.alphaChar, V1.inRange.
  rewrite orb_true_iff, !andb_true_iff, !Z.leb_le. lia.
Qed.

Lemma isAlpha_lowerByte c : isAlpha (lowerByte c) = isAlpha c.
Proof. destruct c as [[] [] [] [] [] [] [] []]; reflexivity. Qed.

Lemma alphaAt_mapString_lower s i :
  alphaAt (mapString lowerByte s) i = alphaAt s i.
Proof.
  unfold alphaAt. rewrite get_mapString.
  destruct (String.get i s); simpl; [apply isAlpha_lowerByte|reflexivity].
Qed.

(** Reading a byte and testing it, as both loops of the scrubber do. *)
Lemma byteAt_alpha {B : Type} s i (x y : outcome B) :
  (i < String.length s)%nat ->
  (do c <- byteAt s i; if V1.alphaChar c then x else y)
  = if alphaAt s i then x else y.
Proof.
  intros Hi. unfold byteAt, alphaAt.
  destruct (get_lt_Some s i Hi) as [c ->]. reflexivity.
Qed.

(** ** The scrubber's loops *)

Lemma findFirst_spec fuel s st :
  (String.length s - idx st <= fuel)%nat ->
  (exists j, (idx st <= j)%nat /\ alphaAt s j = true /\
     (forall k, (idx st <= k < j)%nat -> alphaAt s k = false) /\
     V1.findFirst fuel s st = Ok (mkScrub j (maxAlpha st) true j))
  \/
  ((forall k, (idx st <= k)%nat -> alphaAt s k = false) /\
   V1.findFirst fuel s st
   = Ok (mkScrub (minAlpha st) (maxAlpha st) (anyAlpha st)
           (Nat.max (idx st) (String.length s)))).
Proof.
  revert st. induction fuel as [|fuel IH]; intros [mn mx an i] Hf; simpl in *.
  - destruct (Nat.ltb_spec i (String.length s)) as [Hlt|Hge]; [lia|].
    right. split.
    + intros k Hk. destruct (alphaAt s k) eqn:E; [|done].
      apply alphaAt_lt in E. lia.
    + do 2 f_equal. lia.
  - destruct (Nat.ltb_spec i (String.length s)) as [Hlt|Hge].
    + rewrite byteAt_alpha by done.
      destruct (alphaAt s i) eqn:Ei.
      * left. exists i. repeat split; [lia|done|intros; lia].
      * destruct (IH (mkScrub mn mx an (S i))) as [(j & Hj & Ha & Hb & Hr)|[Hb Hr]];
          simpl in *; [lia| |].
        -- left. exists j. repeat split; [lia|done| |done].
           intros k Hk. destruct (decide (k = i)) as [->|]; [done|apply Hb; lia].
        -- right. split.
           ++ intros k Hk. destruct (decide (k = i)) as [->|]; [done|apply Hb; lia].
           ++ rewrite Hr. do 2 f_equal. lia.
    + right. split.
      * intros k Hk. destruct (alphaAt s k) eqn:E; [|done].
        apply alphaAt_lt in E. lia.
      * do 2 f_equal. lia.
Qed.

Lemma findLast_spec fuel s st :
  (String.length s - idx st <= fuel)%nat ->
  exists st', V1.findLast fuel s st = Ok st' /\
    minAlpha st' = minAlpha st /\
    idx st' = Nat.max (idx st) (String.length s) /\
    ((forall k, (idx st <= k)%nat -> alphaAt s k = false) /\
       maxAlpha st' = maxAlpha st /\ anyAlpha st' = anyAlpha st
     \/
     exists j, (idx st <= j)%nat /\ alphaAt s j = true /\
       (forall k, (j < k)%nat -> alphaAt s k = false) /\
       maxAlpha st' = j /\ anyAlpha st' = true).
Proof.
  assert (Hout : forall i, (String.length s <= i)%nat ->
            forall k, (i <= k)%nat -> alphaAt s k = false).
  { intros i Hi k Hk. destruct (alphaAt s k) eqn:E; [|done].
    apply alphaAt_lt in E. lia. }
  revert st. induction fuel as [|fuel IH]; intros [mn mx an i] Hf; simpl in *.
  - destruct (Nat.ltb_spec i (String.length s)) as [Hlt|Hge]; [lia|].
    eexists; split; [reflexivity|]. simpl. repeat split; [lia|].
    left. repeat split. by apply Hout.
  - destruct (Nat.ltb_spec i (String.length s)) as [Hlt|Hge].
    + unfold byteAt. destruct (get_lt_Some s i Hlt) as [c Hc]. rewrite Hc. simpl.
      assert (Hai : alphaAt s i = isAlpha c) by (unfold alphaAt; by rewrite Hc).
      fold (isAlpha c). destruct (isAlpha c) eqn:Ec; simpl.
      * destruct (IH (mkScrub mn i true (S i))) as (st' & Hr & Hmn & Hidx & Hcase);
          simpl in *; [lia|].
        exists st'. repeat split; [done|done|lia|]. right.
        destruct Hcase as [(Hno & Hmx & Han)|(j & Hj & Haj & Hafter & Hmx & Han)].
        -- exists i. repeat split; [lia|done| |done|done].
           intros k Hk. apply Hno. lia.
        -- exists j. repeat split; [lia|done|done|done|done].
      * destruct (IH (mkScrub mn mx an (S i))) as (st' & Hr & Hmn & Hidx & Hcase);
          simpl in *; [lia|].
        exists st'. repeat split; [done|done|lia|].
        destruct Hcase as [(Hno & Hmx & Han)|(j & Hj & Haj & Hafter & Hmx & Han)].
        -- left. repeat split; [|done|done].
           intros k Hk. destruct (decide (k = i)) as [->|]; [done|apply Hno; lia].
        -- right. exists j. repeat split; [lia|done|done|done|done].
    + eexists; split; [reflexivity|]. simpl. repeat split; [lia|].
      left. repeat split. by apply Hout.
Qed.

(** What [ScrubWord] returns, in terms of the first and the last
    alphabetic byte of its argument. *)
Lemma ScrubWord_cases s :
  ((forall k, alphaAt s k = false) /\ V1.ScrubWord s = Ok ""%string)
  \/
  (exists i j, (i <= j < String.length s)%nat /\
     alphaAt s i = true /\ alphaAt s j = true /\
     (forall k, (k < i)%nat -> alphaAt s k = false) /\
     (forall k, (j < k)%nat -> alphaAt s k = false) /\
     V1.ScrubWord s = Ok (substring i (j + 1 - i) s)).
Proof.
  unfold V1.ScrubWord.
  destruct (findFirst_spec (String.length s) s (mkScrub 0 0 false 0))
    as [(i & _ & Hai & Hbefore & Hr)|[Hno Hr]]; simpl in *; try lia; rewrite Hr; simpl.
  - destruct (findLast_spec (String.length s) s (mkScrub i 0 true i))
      as (st' & Hr' & Hmn & Hidx & Hcase); simpl in *; [lia|].
    rewrite Hr'. simpl. right.
    destruct Hcase as [(Hno & _ & _)|(j & Hj & Haj & Hafter & Hmx & Han)].
    + rewrite Hno in Hai by lia. discriminate.
    + exists i, j. pose proof (alphaAt_lt _ _ Haj) as Hlt.
      repeat split; try done; try lia.
      * intros k Hk. apply Hbefore. lia.
      * rewrite Han, Hmn, Hmx. unfold sliceString.
        destruct (Nat.leb_spec i (j + 1)); [|lia].
        destruct (Nat.leb_spec (j + 1) (String.length s)); [|lia].
        reflexivity.
  - left. split; [intros k; apply Hno; lia|].
    destruct (findLast_spec (String.length s) s
                (mkScrub 0 0 false (Nat.max 0 (String.length s))))
      as (st' & Hr' & Hmn & Hidx & Hcase); simpl in *; [lia|].
    rewrite Hr'. simpl.
    destruct Hcase as [(_ & _ & Han)|(j & Hj & Haj & _)].
    + by rewrite Han.
    + rewrite Hno in Haj by lia. discriminate.
Qed.

Lemma ScrubWord_total s : exists w, V1.ScrubWord s = Ok w.
Proof.
  destruct (ScrubWord_cases s) as [[_ H]|(i & j & _ & _ & _ & _ & _ & H)]; eauto.
Qed.

(** C7: [ScrubWord] is total and never panics; a byte is alphabetic exactly
    when it is in A-Z or a-z; a string without alphabetic byte scrubs to the
    empty string, and any other string scrubs to its substring from the
    first to the last alphabetic byte inclusive, every byte of which is the
    byte of the argument at the corresponding position; the five sample
    values of the specification are as stated. *)
Theorem ScrubWord_spec :
  (forall s, exists w, V1.ScrubWord s = Ok w) /\
  (forall c, isAlpha c = true <->
     (65 <= nat_of_ascii c <= 90 \/ 97 <= nat_of_ascii c <= 122)%nat) /\
  (forall s,
     ((forall k, alphaAt s k = false) /\ V1.ScrubWord s = Ok ""%string)
     \/
     (exists i j, (i <= j < String.length s)%nat /\
        alphaAt s i = true /\ alphaAt s j = true /\
        (forall k, (k < i)%nat -> alphaAt s k = false) /\
        (forall k, (j < k)%nat -> alphaAt s k = false) /\
        V1.ScrubWord s = Ok (substring i (j + 1 - i) s) /\
        String.length (substring i (j + 1 - i) s) = (j + 1 - i)%nat /\
        (forall k, (k < j + 1 - i)%nat ->
           String.get k (substring i (j + 1 - i) s) = String.get (k + i) s))) /\
  V1.ScrubWord "" = Ok ""%string /\
  V1.ScrubWord "..." = Ok ""%string /\
  V1.ScrubWord "don't!" = Ok "don't"%string /\
  V1.ScrubWord "123abc456" = Ok "abc"%string /\
  V1.ScrubWord "Hello," = Ok "Hello"%string.
Proof.
  split; [exact ScrubWord_total|].
  split; [exact isAlpha_range|].
  split; [|repeat split; reflexivity].
  intros s.
  destruct (ScrubWord_cases s) as [H|(i & j & Hij & Hi & Hj & Hb & Ha & Hr)].
  - by left.
  - right. exists i, j. repeat split; try done; try lia.
    + apply length_substring. lia.
    + intros k Hk. by apply substring_correct1.
Qed.

(** ** Case folding and scrubbing *)

Lemma findFirst_lower fuel s st :
  V1.findFirst fuel (mapString lowerByte s) st = V1.findFirst fuel s st.
Proof.
  revert st. induction fuel as [|fuel IH]; intros st; simpl;
    rewrite length_mapString;
    destruct (Nat.ltb_spec (idx st) (String.length s)) as [Hlt|Hge]; try reflexivity.
  rewrite !byteAt_alpha by (rewrite ?length_mapString; done).
  rewrite alphaAt_mapString_lower.
  destruct (alphaAt s (idx st)); [reflexivity|apply IH].
Qed.

Lemma findLast_lower fuel s st :
  V1.findLast fuel (mapString lowerByte s) st = V1.findLast fuel s st.
Proof.
  revert st. induction fuel as [|fuel IH]; intros st; simpl;
    rewrite length_mapString;
    destruct (Nat.ltb_spec (idx st) (String.length s)) as [Hlt|Hge]; try reflexivity.
  unfold byteAt. rewrite get_mapString.
  destruct (String.get (idx st) s) as [c|]; simpl; [|reflexivity].
  change (V1.alphaChar (Z.of_nat (nat_of_ascii (lowerByte c)))) with (isAlpha (lowerByte c)).
  change (V1.alphaChar (Z.of_nat (nat_of_ascii c))) with (isAlpha c).
  rewrite isAlpha_lowerByte. apply IH.
Qed.

Lemma sliceString_mapString f s lo hi :
  sliceString (mapString f s) lo hi = omap (mapString f) (sliceString s lo hi).
Proof.
  unfold sliceString. rewrite length_mapString.
  destruct ((lo <=? hi)%nat && (hi <=? String.length s)%nat); simpl; [|reflexivity].
  by rewrite substring_mapString.
Qed.

(** Lowering bytes A-Z commutes with scrubbing, on every byte string. *)
Lemma ScrubWord_lowerByte s :
  V1.ScrubWord (mapString lowerByte s) = omap (mapString lowerByte) (V1.ScrubWord s).
Proof.
  unfold V1.ScrubWord. rewrite length_mapString, findFirst_lower.
  destruct (V1.findFirst (String.length s) s (mkScrub 0 0 false 0)) as [st1| |];
    simpl; try reflexivity.
  rewrite findLast_lower.
  destruct (V1.findLast (String.length s) s st1) as [st2| |]; simpl; try reflexivity.
  destruct (anyAlpha st2); [apply sliceString_mapString|reflexivity].
Qed.

Lemma ScrubWord_ascii s w :
  allBytes isASCIIByte s = true -> V1.ScrubWord s = Ok w -> allBytes isASCIIByte w = true.
Proof.
  intros Hs Hw.
  destruct (ScrubWord_cases s) as [[_ H]|(i & j & _ & _ & _ & _ & _ & H)];
    rewrite H in Hw; injection Hw as <-; [reflexivity|].
  by apply allBytes_substring.
Qed.

(** On the Kelvin sign the two orders differ, whatever the runtime. *)
Lemma fold_scrub_kelvin (rt : GoRuntime) :
  V1.ScrubWord (stringsToLower kelvinSign) = Ok "k"%string /\
  omap stringsToLower (V1.ScrubWord kelvinSign) = Ok (stringsToLower ""%string).
Proof. split; [by rewrite stringsToLower_kelvin|reflexivity]. Qed.

(** C3, as stated: folding does not commute with scrubbing on the token
    made of the Kelvin sign (U+212A), which has no ASCII letter and which
    [strings.ToLower] turns into the letter k: folded and then scrubbed it
    is the word k, scrubbed and then folded it is the empty word. *)
Lemma fold_scrub_not_commuting :
  V1.ScrubWord (@stringsToLower refRuntime kelvinSign) = Ok "k"%string /\
  omap (@stringsToLower refRuntime) (V1.ScrubWord kelvinSign) = Ok ""%string /\
  ~ (forall (rt : GoRuntime) (s : string),
       V1.ScrubWord (stringsToLower s) = omap stringsToLower (V1.ScrubWord s)).
Proof.
  split; [reflexivity|]. split; [reflexivity|].
  intros H. specialize (H refRuntime kelvinSign).
  destruct (fold_scrub_kelvin refRuntime) as [H1 H2].
  rewrite H1, H2 in H. discriminate H.
Qed.

(** C3, amended: on a token of ASCII bytes, folding to lower case and then
    scrubbing gives the word that scrubbing and then folding gives. *)
Theorem fold_scrub_commute_ascii (rt : GoRuntime) (s : string) :
  allBytes isASCIIByte s = true ->
  V1.ScrubWord (stringsToLower s) = omap stringsToLower (V1.ScrubWord s).
Proof.
  intros Hs. rewrite (stringsToLower_ascii s Hs), ScrubWord_lowerByte.
  destruct (V1.ScrubWord s) as [w| |] eqn:Hw; simpl; try reflexivity.
  f_equal. symmetry. apply stringsToLower_ascii. by eapply ScrubWord_ascii.
Qed.

Lemma fold_scrub_commute_ascii_witness :
  allBytes isASCIIByte "Hello," = true /\
  V1.ScrubWord (@stringsToLower refRuntime "Hello,")
  = omap (@stringsToLower refRuntime) (V1.ScrubWord "Hello,").
Proof.
  split; [reflexivity|].
  apply (fold_scrub_commute_ascii refRuntime "Hello,"). reflexivity.
Defined.

(** ** Integers and sums *)

Lemma wrap64_small z : - 2 ^ 63 <= z <= maxInt -> wrap64 z = z.
Proof.
  unfold wrap64, maxInt. intros H.
  rewrite Z.mod_small by lia. lia.
Qed.

Lemma sumZ_perm l1 l2 : l1 ≡ₚ l2 -> sumZ l1 = sumZ l2.
Proof. unfold sumZ. induction 1; simpl; lia. Qed.

Lemma sumZ_app l1 l2 : sumZ (l1 ++ l2) = sumZ l1 + sumZ l2.
Proof. unfold sumZ. induction l1; simpl; lia. Qed.

Lemma sumZ_replicate n : sumZ (replicate n 0) = 0.
Proof. unfold sumZ. induction n; simpl; lia. Qed.

Lemma sumZ_insert (l : list Z) i v w :
  l !! i = Some v -> sumZ (<[i:=w]> l) = sumZ l - v + w.
Proof.
  unfold sumZ. revert i. induction l as [|x l IH]; intros [|i] H; simpl in *;
    try discriminate.
  - injection H as ->. lia.
  - rewrite (IH _ H). lia.
Qed.

Lemma sumValues_empty : sumValues ∅ = 0.
Proof. unfold sumValues. by rewrite map_to_list_empty. Qed.

Lemma sumValues_insert_fresh (m : gmap string Z) w v :
  m !! w = None -> sumValues (<[w:=v]> m) = v + sumValues m.
Proof.
  intros H. unfold sumValues.
  rewrite (sumZ_perm _ _ (fmap_Permutation snd _ _ (map_to_list_insert m w v H))).
  reflexivity.
Qed.

Lemma sumValues_lookup (m : gmap string Z) w v :
  m !! w = Some v -> sumValues m = v + sumValues (delete w m).
Proof.
  intros H. unfold sumValues.
  rewrite <- (sumZ_perm _ _ (fmap_Permutation snd _ _ (map_to_list_delete m w v H))).
  reflexivity.
Qed.

Lemma sumValues_delete (m : gmap string Z) w :
  sumValues (delete w m) = sumValues m - default 0 (m !! w).
Proof.
  destruct (m !! w) as [v|] eqn:E; simpl.
  - rewrite (sumValues_lookup m w v E). lia.
  - rewrite delete_id by done. lia.
Qed.

Lemma sumValues_insert (m : gmap string Z) w v :
  sumValues (<[w:=v]> m) = sumValues m - default 0 (m !! w) + v.
Proof.
  rewrite <- insert_delete_eq.
  rewrite sumValues_insert_fresh by apply lookup_delete_eq.
  rewrite sumValues_delete. lia.
Qed.

(** ** The word counter *)

Lemma scanWord_total (rt : GoRuntime) cs text : exists w, V1.scanWord cs text = Ok w.
Proof. unfold V1.scanWord. destruct cs; apply ScrubWord_total. Qed.

Lemma scanInv_init : scanInv ∅ 0 0.
Proof.
  split; [reflexivity|]. split; [apply sumValues_empty|].
  intros w v H. rewrite lookup_empty in H. discriminate.
Qed.

Lemma scanInv_step m total k w :
  Z.of_nat (S k) <= maxInt ->
  scanInv m total k ->
  scanInv (<[w:=wrap64 (default 0 (m !! w) + 1)]> m) (wrap64 (total + 1)) (S k) /\
  wrap64 (default 0 (m !! w) + 1) = default 0 (m !! w) + 1.
Proof.
  intros Hk (Ht & Hs & Hv).
  assert (Hw : 0 <= default 0 (m !! w) <= Z.of_nat k).
  { destruct (m !! w) as [v|] eqn:E; simpl; [apply Hv in E|]; lia. }
  assert (Hwrap : wrap64 (default 0 (m !! w) + 1) = default 0 (m !! w) + 1).
  { apply wrap64_small. unfold maxInt in *. lia. }
  split; [|done]. rewrite Hwrap. split; [|split].
  - rewrite wrap64_small; unfold maxInt in *; lia.
  - rewrite sumValues_insert. lia.
  - intros w' v. rewrite lookup_insert. case_decide.
    + intros [= <-]. lia.
    + intros E. apply Hv in E. lia.
Qed.

Lemma scanLoop_spec (rt : GoRuntime) cs tokens m total k :
  Z.of_nat (k + length tokens) <= maxInt ->
  scanInv m total k ->
  exists m' total',
    V1.scanLoop cs tokens m total = Ok (m', total') /\
    scanInv m' total' (k + length tokens) /\
    default 0 (m' !! ""%string)
    = default 0 (m !! ""%string) + Z.of_nat (countEmpty rt cs tokens).
Proof.
  revert m total k. induction tokens as [|text rest IH]; intros m total k Hk Hinv;
    cbn [V1.scanLoop length].
  - exists m, total. rewrite Nat.add_0_r. split; [done|]. split; [done|].
    unfold countEmpty. simpl. lia.
  - destruct (scanWord_total rt cs text) as [w Hw]. rewrite Hw. cbn [bind].
    cbn [length] in Hk.
    destruct (scanInv_step m total k w) as [Hinv' Hwrap]; [lia|done|].
    destruct (IH _ _ (S k) ltac:(lia) Hinv') as (m' & total' & Hr & Hinv'' & He).
    exists m', total'. split; [done|]. split.
    { by replace (k + S (length rest))%nat with (S k + length rest)%nat by lia. }
    rewrite He, Hwrap. unfold countEmpty.
    assert (Hse : scrubsEmpty rt cs text = String.eqb w "")
      by (unfold scrubsEmpty; by rewrite Hw).
    rewrite lookup_insert. destruct (String.eqb_spec w "") as [->|Hne].
    + rewrite decide_True by done. rewrite filter_cons_True by done.
      simpl. lia.
    + rewrite decide_False by done. rewrite filter_cons_False by (by rewrite Hse).
      lia.
Qed.

(** The result of [WordCount]: the total is the number of tokens, the map
    has no empty key, and its values are positive and add up to the number
    of tokens that are not counted under the empty word. *)
Lemma WordCount_spec (rt : GoRuntime) tokens cs :
  Z.of_nat (length tokens) <= maxInt ->
  exists m total,
    V1.WordCount tokens cs = Ok (m, total) /\
    total = Z.of_nat (length tokens) /\
    m !! ""%string = None /\
    (forall w v, m !! w = Some v -> 1 <= v <= Z.of_nat (length tokens)) /\
    sumValues m = Z.of_nat (length tokens) - Z.of_nat (countEmpty rt cs tokens).
Proof.
  intros Hlen. unfold V1.WordCount.
  destruct (scanLoop_spec rt cs tokens ∅ 0 0) as (m' & total' & Hr & (Ht & Hs & Hv) & He);
    [simpl; lia|apply scanInv_init|].
  rewrite Hr. simpl in *. exists (delete ""%string m'), total'.
  split; [done|]. split; [done|]. split; [apply lookup_delete_eq|]. split.
  - intros w v H. apply lookup_delete_Some in H as [_ H]. by apply Hv in H.
  - rewrite sumValues_delete, Hs, He, lookup_empty. simpl. lia.
Qed.

Lemma countEmpty_zero (rt : GoRuntime) cs tokens :
  countEmpty rt cs tokens = 0%nat <->
  (forall t, t ∈ tokens -> scrubsEmpty rt cs t = false).
Proof.
  unfold countEmpty. induction tokens as [|t rest IH]; simpl.
  - split; [intros _ t Ht; inversion Ht|done].
  - destruct (scrubsEmpty rt cs t) eqn:E.
    + rewrite filter_cons_True by done. simpl. split; [lia|].
      intros H. specialize (H t (list_elem_of_here _ _)). congruence.
    + rewrite filter_cons_False by congruence. rewrite IH. split.
      * intros H t' Ht'. apply elem_of_cons in Ht' as [->|Ht']; auto.
      * intros H t' Ht'. apply H. by apply list_elem_of_further.
Qed.

(** C4: on every token sequence an [int] can count, [WordCount] returns a
    total equal to the number of tokens scanned (tokens counted under the
    empty word included) and a map that has no empty key and only positive
    values; the values add up to at most the total, and to exactly the
    total if and only if no token is counted under the empty word. *)
Theorem WordCount_total_and_counts (rt : GoRuntime) (tokens : list string) (cs : bool) :
  Z.of_nat (length tokens) <= maxInt ->
  exists m total,
    V1.WordCount tokens cs = Ok (m, total) /\
    total = Z.of_nat (length tokens) /\
    m !! ""%string = None /\
    (forall w v, m !! w = Some v -> 0 < v) /\
    sumValues m = total - Z.of_nat (countEmpty rt cs tokens) /\
    sumValues m <= total /\
    (sumValues m = total <-> forall t, t ∈ tokens -> scrubsEmpty rt cs t = false).
Proof.
  intros Hlen.
  destruct (WordCount_spec rt tokens cs Hlen) as (m & total & Hr & Ht & He & Hv & Hs).
  exists m, total. split; [done|]. split; [done|]. split; [done|]. split.
  { intros w v H. apply Hv in H. lia. }
  split; [lia|]. split; [lia|]. split.
  - intros H. apply countEmpty_zero. lia.
  - intros H. apply countEmpty_zero in H. lia.
Qed.

Lemma WordCount_total_and_counts_witness :
  Z.of_nat (length ["The"; "the"; "THE."; "..."]%string) <= maxInt /\
  exists m total,
    @V1.WordCount refRuntime ["The"; "the"; "THE."; "..."]%string false = Ok (m, total) /\
    total = Z.of_nat (length ["The"; "the"; "THE."; "..."]%string) /\
    m !! ""%string = None /\
    (forall w v, m !! w = Some v -> 0 < v) /\
    sumValues m = total - Z.of_nat (countEmpty refRuntime false ["The"; "the"; "THE."; "..."]%string) /\
    sumValues m <= total /\
    (sumValues m = total <->
     forall t, t ∈ ["The"; "the"; "THE."; "..."]%string -> scrubsEmpty refRuntime false t = false).
Proof.
  assert (H : Z.of_nat (length ["The"; "the"; "THE."; "..."]%string) <= maxInt)
    by (vm_compute; discriminate).
  split; [exact H|].
  exact (WordCount_total_and_counts refRuntime ["The"; "the"; "THE."; "..."]%string false H).
Defined.

(** ** Trimming the histogram *)

Lemma maxLoop_spec h i mx :
  (Forall (fun v => v <= 0) h /\ V1.maxLoop h i mx = mx)
  \/
  (exists j v, h !! j = Some v /\ 0 < v /\
     Forall (fun v' => v' <= 0) (drop (S j) h) /\
     V1.maxLoop h i mx = (i + j)%nat).
Proof.
  revert i mx. induction h as [|x h IH]; intros i mx; simpl.
  - left. by split.
  - destruct (IH (S i) (if 0 <? x then i else mx))
      as [[Hall Hr]|(j & v & Hj & Hv & Hafter & Hr)].
    + destruct (Z.ltb_spec 0 x) as [Hx|Hx].
      * right. exists 0%nat, x. simpl. rewrite drop_0.
        split; [done|]. split; [done|]. split; [done|]. rewrite Hr. lia.
      * left. split; [by constructor|done].
    + right. exists (S j), v. simpl.
      split; [done|]. split; [done|]. split; [done|]. rewrite Hr. lia.
Qed.

(** The slots that [trimHist] keeps and the slots it drops. *)
Lemma trimHist_cases c :
  LengthHistogram c <> [] ->
  exists h' zs,
    V1.trimHist c
    = Ok (mkConcordance (Counts c) (Total c) (Unique c) (MostUsed c) h') /\
    LengthHistogram c = h' ++ zs /\
    Forall (fun v => v <= 0) zs /\
    ((exists v, last h' = Some v /\ 0 < v)
     \/ (Forall (fun v => v <= 0) (LengthHistogram c) /\
         h' = take 1 (LengthHistogram c))).
Proof.
  intros Hne. unfold V1.trimHist. destruct c as [cn tot un mu h]. simpl in *.
  destruct (maxLoop_spec h 0 0) as [[Hall Hr]|(j & v & Hj & Hv & Hafter & Hr)];
    rewrite Hr; unfold resliceList.
  - destruct h as [|x h]; [done|]. simpl.
    exists [x], h. split; [done|]. split; [done|]. split; [by inversion Hall|].
    right. split; [done|]. by rewrite take_0.
  - pose proof (lookup_lt_Some _ _ _ Hj) as Hlt.
    destruct (Nat.leb_spec (0 + j + 1) (length h)) as [_|]; [|lia]. simpl.
    replace (j + 1)%nat with (S j) by lia.
    exists (take (S j) h), (drop (S j) h).
    split; [done|]. split; [by rewrite take_drop|]. split; [done|].
    left. exists v. split; [|done].
    rewrite last_lookup, length_take, Nat.min_l by lia. simpl.
    by rewrite lookup_take_lt by lia.
Qed.

(** ** Growing and filling the histogram *)

Lemma store_middle (pre : list Z) j t v :
  store (pre ++ j :: t) (length pre) v = Ok ((pre ++ [v]) ++ t).
Proof.
  unfold store. rewrite length_app. simpl.
  destruct (Nat.ltb_spec (length pre) (length pre + S (length t))); [|lia].
  rewrite insert_app_r_alt by lia. rewrite Nat.sub_diag. simpl.
  by rewrite <- app_assoc.
Qed.

(** The copying loop writes the old values at their own indices and leaves
    the slots after them as they are; it panics when the new sequence is
    shorter than the old one. *)
Lemma copyLoop_spec old pre tl :
  V1.copyLoop old (length pre) (pre ++ tl)
  = if (length old <=? length tl)%nat
    then Ok (pre ++ old ++ drop (length old) tl)
    else Panic.
Proof.
  revert pre tl. induction old as [|v rest IH]; intros pre tl; simpl.
  - by rewrite drop_0.
  - destruct tl as [|j t]; simpl.
    + unfold store. rewrite app_nil_r, Nat.ltb_irrefl. reflexivity.
    + rewrite store_middle. simpl.
      replace (S (length pre)) with (length (pre ++ [v]))
        by (rewrite length_app; simpl; lia).
      rewrite IH. destruct (length rest <=? length t)%nat; [|reflexivity].
      by rewrite <- app_assoc.
Qed.

Lemma histInv_extend hist k n :
  histInv hist k -> histInv (hist ++ replicate n 0) k.
Proof.
  intros (Hall & Hsum & Hlen). split; [|split].
  - apply Forall_app. split; [done|]. apply Forall_replicate. lia.
  - rewrite sumZ_app, sumZ_replicate. lia.
  - rewrite length_app. lia.
Qed.

Lemma slot_extend hist n i : slot (hist ++ replicate n 0) i = slot hist i.
Proof.
  unfold slot. destruct (Nat.lt_ge_cases i (length hist)) as [Hlt|Hge].
  - by rewrite lookup_app_l.
  - rewrite lookup_app_r by done. rewrite (lookup_ge_None_2 hist i) by done.
    destruct (replicate n 0 !! (i - length hist)%nat) as [z|] eqn:E; [|done].
    apply lookup_replicate in E as [-> _]. done.
Qed.

Lemma slot_replicate n i : slot (replicate n 0) i = 0.
Proof.
  unfold slot. destruct (replicate n 0 !! i) as [z|] eqn:E; [|done].
  by apply lookup_replicate in E as [-> _].
Qed.

Lemma incr_spec hist i hist' k :
  histInv hist k -> Z.of_nat (S k) <= maxInt ->
  incr hist i = Ok hist' ->
  histInv hist' (S k) /\ length hist' = length hist /\ (i < length hist)%nat /\
  (forall n, slot hist' n = slot hist n + (if decide (n = i) then 1 else 0)).
Proof.
  intros (Hall & Hsum & Hlen) Hk. unfold incr.
  destruct (hist !! i) as [v|] eqn:Ei; [|discriminate]. intros [= <-].
  pose proof (Forall_lookup_1 _ _ _ _ Hall Ei) as Hv. simpl in Hv.
  pose proof (lookup_lt_Some _ _ _ Ei) as Hi.
  rewrite wrap64_small by (unfold maxInt in *; lia).
  split; [split; [|split]|split; [|split]].
  - apply Forall_insert; [|lia].
    eapply Forall_impl; [exact Hall|]. simpl. intros; lia.
  - rewrite (sumZ_insert _ _ _ _ Ei). lia.
  - by rewrite length_insert.
  - apply length_insert.
  - done.
  - intros n. unfold slot. rewrite list_lookup_insert.
    destruct (decide (n = i)) as [->|Hne].
    + rewrite decide_True by done. rewrite Ei. simpl. lia.
    + rewrite decide_False by (intros [? _]; congruence). lia.
Qed.

(** One round of the histogram code that completes leaves the invariant in
    place, never shortens the histogram, and adds one to the slot of the
    word's length. *)
Lemma histStep_Ok hist wl hist' k :
  histInv hist k -> Z.of_nat (S k) <= maxInt ->
  V1.histStep hist wl = Ok hist' ->
  histInv hist' (S k) /\ (length hist <= length hist')%nat /\
  (wl < length hist')%nat /\
  (forall n, slot hist' n = slot hist n + (if decide (n = wl) then 1 else 0)).
Proof.
  intros Hinv Hk. unfold V1.histStep.
  destruct (Nat.leb_spec (length hist) wl) as [Hgrow|Hfit].
  - intros H. bind_inv H as newlen Hg. clear Hg.
    bind_inv H as newHist Ha0. bind_inv H as newHist' Ha1.
    unfold makeInts in Ha0.
    destruct (wrap64 (2 * Z.of_nat (length hist)) <? 0); [discriminate|].
    injection Ha0 as <-.
    pose proof (copyLoop_spec hist [] (replicate (Z.to_nat (wrap64 (2 * Z.of_nat (length hist)))) 0)) as Hc.
    simpl in Hc. rewrite Hc in Ha1. clear Hc.
    destruct (length hist <=? _)%nat; [|discriminate].
    injection Ha1 as <-. rewrite drop_replicate in H.
    destruct (incr_spec _ _ _ k (histInv_extend _ _ _ Hinv) Hk H)
      as (Hinv' & Hlen & Hwl & Hslot).
    split; [done|]. rewrite Hlen. split; [rewrite length_app; lia|]. split; [done|].
    intros n. rewrite Hslot, slot_extend. done.
  - intros H.
    destruct (incr_spec _ _ _ k Hinv Hk H) as (Hinv' & Hlen & Hwl & Hslot).
    split; [done|]. rewrite Hlen. split; [lia|]. split; done.
Qed.

Lemma growLen_done fuel newlen wordlen :
  wordlen <= newlen -> V1.growLen fuel newlen wordlen = Ok newlen.
Proof.
  intros H. destruct fuel; simpl;
    destruct (Z.ltb_spec newlen wordlen); (lia || reflexivity).
Qed.

Lemma wrap64_mod z : wrap64 z mod 2 ^ 64 = z mod 2 ^ 64.
Proof.
  unfold wrap64. rewrite Zminus_mod_idemp_l. f_equal. lia.
Qed.

Lemma wrap64_range z : - 2 ^ 63 <= wrap64 z < 2 ^ 63.
Proof.
  unfold wrap64. pose proof (Z.mod_pos_bound (z + 2 ^ 63) (2 ^ 64) ltac:(lia)). lia.
Qed.

Lemma doubled_S i z : doubled (S i) z = wrap64 (doubled i z * 2).
Proof. reflexivity. Qed.

Lemma doubled_S_l i z : doubled (S i) z = doubled i (wrap64 (z * 2)).
Proof.
  induction i as [|i IH]; [reflexivity|].
  rewrite doubled_S, IH. reflexivity.
Qed.

Lemma doubled_mod i z : doubled i z mod 2 ^ 64 = (z * 2 ^ Z.of_nat i) mod 2 ^ 64.
Proof.
  induction i as [|i IH].
  - simpl. f_equal. lia.
  - rewrite doubled_S, wrap64_mod, <- Z.mul_mod_idemp_l, IH by lia.
    rewrite Z.mul_mod_idemp_l by lia. f_equal.
    rewrite Nat2Z.inj_succ, Z.pow_succ_r by lia. lia.
Qed.

(** After 64 rounds [newlen] is 0, and stays 0. *)
Lemma doubled_64 z : doubled 64 z = 0.
Proof.
  pose proof (doubled_mod 64 z) as H.
  change (Z.of_nat 64) with 64 in H. rewrite Z.mod_mul in H by lia.
  assert (Hr : - 2 ^ 63 <= doubled 64 z < 2 ^ 63).
  { change 64%nat with (S 63). rewrite doubled_S. apply wrap64_range. }
  apply Z.mod_divide in H; [|lia]. destruct H as [q Hq]. lia.
Qed.

Lemma growLen_zero fuel wordlen : 0 < wordlen -> V1.growLen fuel 0 wordlen = Diverges.
Proof.
  intros H. induction fuel as [|fuel IH]; simpl;
    destruct (Z.ltb_spec 0 wordlen); try lia; [reflexivity|exact IH].
Qed.

Lemma growLen_add a b newlen wordlen :
  V1.growLen (a + b) newlen wordlen
  = match V1.growLen a newlen wordlen with
    | Diverges => V1.growLen b (doubled a newlen) wordlen
    | r => r
    end.
Proof.
  revert newlen. induction a as [|a IH]; intros newlen.
  - simpl. destruct (Z.ltb_spec newlen wordlen); [reflexivity|].
    by apply growLen_done.
  - cbn [Nat.add V1.growLen]. destruct (Z.ltb_spec newlen wordlen); [|reflexivity].
    rewrite IH, doubled_S_l. reflexivity.
Qed.

(** The fuel of [growLen] in [histStep] decides the loop: more rounds give
    the same outcome, so [Diverges] there is a loop that never ends. *)
Lemma growLen_fuel fuel newlen wordlen :
  (65 <= fuel)%nat ->
  V1.growLen fuel newlen wordlen = V1.growLen 65 newlen wordlen.
Proof.
  intros Hf. replace fuel with (64 + (fuel - 64))%nat by lia.
  change 65%nat with (64 + 1)%nat. rewrite !growLen_add, doubled_64.
  destruct (V1.growLen 64 newlen wordlen); try reflexivity.
  destruct (Z.ltb_spec 0 wordlen).
  - by rewrite !growLen_zero.
  - by rewrite !growLen_done by lia.
Qed.

(** A word shorter than twice the histogram is always accommodated: the
    histogram keeps its length or doubles. *)
Lemma histStep_fits hist wl :
  (wl < 2 * length hist)%nat -> 2 * Z.of_nat (length hist) <= maxInt ->
  exists hist', V1.histStep hist wl = Ok hist' /\
    (length hist' = length hist \/ length hist' = (2 * length hist)%nat).
Proof.
  intros Hwl Hlen. unfold V1.histStep.
  destruct (Nat.leb_spec (length hist) wl) as [Hgrow|Hfit].
  - rewrite wrap64_small by (unfold maxInt in *; lia).
    rewrite growLen_done by lia.
    cbn [bind]. unfold makeInts.
    destruct (Z.ltb_spec (2 * Z.of_nat (length hist)) 0); [lia|]. simpl.
    pose proof (copyLoop_spec hist [] (replicate (Z.to_nat (2 * Z.of_nat (length hist))) 0)) as Hc.
    simpl in Hc. rewrite Hc. clear Hc. rewrite length_replicate.
    destruct (Nat.leb_spec (length hist) (Z.to_nat (2 * Z.of_nat (length hist)))); [|lia].
    simpl. rewrite drop_replicate. unfold incr.
    destruct (lookup_lt_is_Some_2 (hist ++ replicate (Z.to_nat (2 * Z.of_nat (length hist)) - length hist)%nat 0) wl) as [v ->].
    { rewrite length_app, length_replicate. lia. }
    eexists. split; [reflexivity|]. right.
    rewrite length_insert, length_app, length_replicate. lia.
  - unfold incr. destruct (lookup_lt_is_Some_2 hist wl Hfit) as [v ->].
    eexists. split; [reflexivity|]. left. apply length_insert.
Qed.

(** A word at least twice as long as the histogram is not: the new
    histogram is allocated with twice the old length, not with the length
    the doubling loop computed, and the increment is out of range. *)
Lemma histStep_too_long hist wl hist' :
  (2 * length hist <= wl)%nat -> 2 * Z.of_nat (length hist) <= maxInt ->
  V1.histStep hist wl <> Ok hist'.
Proof.
  intros Hwl Hlen H. unfold V1.histStep in H.
  destruct (Nat.leb_spec (length hist) wl) as [Hgrow|Hfit]; [|lia].
  bind_inv H as newlen Hg. clear Hg.
  bind_inv H as newHist Ha0. bind_inv H as newHist' Ha1.
  rewrite wrap64_small in Ha0 by (unfold maxInt in *; lia).
  unfold makeInts in Ha0.
  destruct (2 * Z.of_nat (length hist) <? 0); [discriminate|]. injection Ha0 as <-.
  pose proof (copyLoop_spec hist [] (replicate (Z.to_nat (2 * Z.of_nat (length hist))) 0)) as Hc.
  simpl in Hc. rewrite Hc in Ha1. clear Hc.
  destruct (length hist <=? _)%nat; [|discriminate]. injection Ha1 as <-.
  unfold incr in H.
  destruct (_ !! wl) eqn:E; [|discriminate].
  apply lookup_lt_Some in E.
  rewrite length_app, length_drop, length_replicate in E. lia.
Qed.

(** ** Slices *)

Section Slices.
Context `{rt : GoRuntime} {A : Type} (zero : A).

Lemma slen_append (s : slice A) x : slen (append zero s x) = S (slen s).
Proof. unfold append. by destruct (slen s <? cap s)%nat. Qed.

Lemma append_wf (s : slice A) x : slice_wf s -> slice_wf (append zero s x).
Proof.
  unfold slice_wf, append, cap, elems. intros Hwf.
  destruct (Nat.ltb_spec (slen s) (length (arr s))); simpl.
  - rewrite length_insert. lia.
  - rewrite length_app, length_take. simpl. lia.
Qed.

Lemma elems_append (s : slice A) x :
  slice_wf s -> elems (append zero s x) = elems s ++ [x].
Proof.
  unfold slice_wf, append, cap, elems. intros Hwf.
  destruct (Nat.ltb_spec (slen s) (length (arr s))); simpl.
  - rewrite (take_S_r _ _ x) by (by apply list_lookup_insert_eq).
    by rewrite take_insert_ge.
  - rewrite (take_ge (arr s)) by lia.
    rewrite take_app, take_ge by lia.
    replace (S (slen s) - length (arr s))%nat with 1%nat by lia.
    reflexivity.
Qed.

Lemma cap_append_room (s : slice A) x :
  (slen s < cap s)%nat -> cap (append zero s x) = cap s.
Proof.
  unfold append, cap. intros H.
  destruct (Nat.ltb_spec (slen s) (length (arr s))); [|lia].
  simpl. apply length_insert.
Qed.

Lemma elems_sortSlice (less : A -> A -> bool) (s : slice A) :
  slice_wf s -> elems (sortSlice less s) = sortSort A less (elems s).
Proof.
  unfold slice_wf, sortSlice, cap, elems. intros Hwf. simpl.
  apply take_app_length'.
  rewrite (Permutation_length (sortSort_perm A less _)), length_take. lia.
Qed.

Lemma cap_sortSlice (less : A -> A -> bool) (s : slice A) :
  slice_wf s -> cap (sortSlice less s) = cap s.
Proof.
  unfold slice_wf, sortSlice, cap, elems. intros Hwf. simpl.
  rewrite length_app, (Permutation_length (sortSort_perm A less _)).
  rewrite length_take, length_drop. lia.
Qed.

End Slices.

(** ** The pass over the frequency map *)

Lemma countLen_perm n l1 l2 : l1 ≡ₚ l2 -> countLen n l1 = countLen n l2.
Proof. intros H. unfold countLen. by rewrite H. Qed.

Lemma rangeLoop_Ok (rt : GoRuntime) entries mu hist k r :
  Z.of_nat (k + length entries) <= maxInt ->
  histInv hist k -> slice_wf mu ->
  V1.rangeLoop entries mu hist = Ok r ->
  histInv (snd r) (k + length entries) /\
  slice_wf (fst r) /\
  elems (fst r) = elems mu ++ (toWordTuple <$> entries) /\
  slen (fst r) = (slen mu + length entries)%nat /\
  ((slen mu + length entries <= cap mu)%nat -> cap (fst r) = cap mu) /\
  (length hist <= length (snd r))%nat /\
  (forall n, slot (snd r) n = slot hist n + Z.of_nat (countLen n entries)).
Proof.
  revert mu hist k. induction entries as [|kv rest IH]; intros mu hist k Hk Hinv Hwf;
    cbn [V1.rangeLoop length].
  - intros [= <-]. simpl. rewrite Nat.add_0_r, app_nil_r.
    split; [done|]. split; [done|]. split; [done|]. split; [done|].
    split; [done|]. split; [done|]. intros n. unfold countLen. simpl. lia.
  - intros H. bind_inv H as hist' Hstep. cbn [length] in Hk.
    destruct (histStep_Ok hist _ hist' k Hinv ltac:(lia) Hstep)
      as (Hinv' & Hlen & _ & Hslot).
    destruct (IH _ _ (S k) ltac:(lia) Hinv' (append_wf zeroWordTuple mu _ Hwf) H)
      as (Hi & Hw & He & Hs & Hc & Hl & Hsl).
    replace (k + S (length rest))%nat with (S k + length rest)%nat by lia.
    split; [done|]. split; [done|]. split.
    { rewrite He, elems_append by done. by rewrite <- app_assoc. }
    split. { rewrite Hs, slen_append. lia. }
    split.
    { intros Hroom. rewrite slen_append in Hc. rewrite Hc by (rewrite cap_append_room; lia).
      apply cap_append_room. lia. }
    split; [lia|].
    intros n. rewrite Hsl, Hslot. unfold countLen.
    destruct (decide (n = String.length kv.1)) as [->|Hne].
    + rewrite filter_cons_True by done. simpl. lia.
    + rewrite filter_cons_False by congruence. lia.
Qed.

(** Every entry is accommodated when all words are shorter than 128 bytes:
    the histogram has 64 slots, or 128 after its one doubling. *)
Lemma rangeLoop_fits (rt : GoRuntime) entries mu hist :
  Forall (fun kv => (String.length (fst kv) < 128)%nat) entries ->
  length hist = 64%nat \/ length hist = 128%nat ->
  exists r, V1.rangeLoop entries mu hist = Ok r /\
    (length (snd r) = 64%nat \/ length (snd r) = 128%nat).
Proof.
  revert mu hist. induction entries as [|kv rest IH]; intros mu hist Hall Hlen;
    cbn [V1.rangeLoop].
  - eauto.
  - inversion Hall as [|? ? Hkv Hrest]; subst.
    destruct (histStep_fits hist (String.length kv.1)) as (hist' & Hstep & Hlen');
      [lia|unfold maxInt; lia|].
    rewrite Hstep. cbn [bind]. apply IH; [done|].
    unfold V1.histStep in Hstep.
    destruct (Nat.leb_spec (length hist) (String.length kv.1)) as [Hgrow|Hfit];
      [lia|].
    unfold incr in Hstep. destruct (hist !! _); [|discriminate].
    injection Hstep as <-. rewrite length_insert. done.
Qed.

Lemma rangeLoop_wf (rt : GoRuntime) entries mu hist r :
  V1.rangeLoop entries mu hist = Ok r -> slice_wf mu -> slice_wf (fst r).
Proof.
  revert mu hist. induction entries as [|kv rest IH]; intros mu hist;
    cbn [V1.rangeLoop].
  - by intros [= <-].
  - intros H Hwf. bind_inv H as hist' Hstep.
    eapply IH; [exact H|]. by apply append_wf.
Qed.

(** ** [process] *)

Lemma Less_reverse_order : StrictWeakOrder (sortReverse V1.Less).
Proof.
  unfold StrictWeakOrder, sortReverse, V1.Less. split; [|split].
  - intros a. apply Z.ltb_irrefl.
  - intros a b c. rewrite !Z.ltb_lt. lia.
  - intros a b c. rewrite !Z.ltb_ge. lia.
Qed.

Lemma trim_keeps hist h' zs k :
  Forall (fun v => 0 <= v <= Z.of_nat k) hist ->
  hist = h' ++ zs -> Forall (fun v => v <= 0) zs ->
  sumZ h' = sumZ hist /\ (forall n, slot h' n = slot hist n).
Proof.
  intros Hall -> Hzs. apply Forall_app in Hall as [_ Hz].
  assert (Hzero : zs = replicate (length zs) 0).
  { clear -Hz Hzs. induction zs as [|z zs IH]; [done|].
    inversion Hz; inversion Hzs; subst. simpl. f_equal; [lia|by apply IH]. }
  rewrite Hzero. split.
  - rewrite sumZ_app, sumZ_replicate. lia.
  - intros n. by rewrite slot_extend.
Qed.

(** The state [process] leaves, when it completes, on a concordance whose
    [Unique] is the size of its [Counts]. *)
Lemma process_Ok (rt : GoRuntime) c c' :
  Unique c = Z.of_nat (size (Counts c)) ->
  Z.of_nat (size (Counts c)) <= maxInt ->
  V1.process c = Ok c' ->
  Counts c' = Counts c /\ Total c' = Total c /\ Unique c' = Unique c /\
  elems (MostUsed c') ≡ₚ toWordTuple <$> map_to_list (Counts c) /\
  IsSorted (sortReverse V1.Less) (elems (MostUsed c')) /\
  slen (MostUsed c') = size (Counts c) /\
  cap (MostUsed c') = size (Counts c) /\
  sumZ (LengthHistogram c') = Unique c /\
  (forall n, slot (LengthHistogram c') n
             = Z.of_nat (countLen n (map_to_list (Counts c)))) /\
  ((exists v, last (LengthHistogram c') = Some v /\ 0 < v)
   \/ LengthHistogram c' = [0]).
Proof.
  intros Hu Hsize. unfold V1.process.
  change (makeInts 64) with (Ok (replicate 64 0)). cbn [bind].
  unfold makeCap. rewrite Hu.
  destruct (Z.ltb_spec (Z.of_nat (size (Counts c))) 0) as [|_]; [lia|].
  cbn [bind]. rewrite Nat2Z.id.
  intros H. bind_inv H as r Hloop.
  pose proof (mapRange_perm (Counts c)) as Hperm.
  assert (Hlen : length (mapRange (Counts c)) = size (Counts c)).
  { rewrite (Permutation_length Hperm). apply length_map_to_list. }
  assert (Hinv0 : histInv (replicate 64 0) 0).
  { split; [apply Forall_replicate; lia|].
    split; [apply sumZ_replicate|rewrite length_replicate; lia]. }
  assert (Hwf0 : slice_wf (mkSlice (replicate (size (Counts c)) zeroWordTuple) 0)).
  { unfold slice_wf, cap. simpl. lia. }
  destruct (rangeLoop_Ok rt _ _ _ 0 r ltac:(rewrite Hlen; simpl; lia) Hinv0 Hwf0 Hloop)
    as (Hinv & Hwf & He & Hs & Hc & Hl & Hsl).
  cbn [elems slen arr take app] in He. rewrite take_0 in He. cbn [app] in He.
  specialize (Hc ltac:(unfold cap; cbn [slen arr]; rewrite length_replicate, Hlen; lia)).
  unfold cap at 2 in Hc. cbn [arr] in Hc. rewrite length_replicate in Hc.
  cbn [slen] in Hs. rewrite Hlen in Hs, Hinv. cbn [Nat.add] in Hs, Hinv.
  destruct Hinv as (Hall & Hsum & H64).
  destruct (trimHist_cases
              (mkConcordance (Counts c) (Total c) (Z.of_nat (size (Counts c)))
                 (sortSlice (sortReverse V1.Less) r.1) r.2))
    as (h' & zs & Htrim & Happ & Hzs & Hlast).
  { cbn [LengthHistogram]. intros E. rewrite E in H64. simpl in H64. lia. }
  rewrite Htrim in H. injection H as <-.
  cbn [Counts Total Unique MostUsed LengthHistogram] in *.
  destruct (trim_keeps _ _ _ _ Hall Happ Hzs) as [Hsum' Hslot'].
  split; [done|]. split; [done|]. split; [done|].
  rewrite elems_sortSlice by done.
  split. { rewrite sortSort_perm, He. simpl. by rewrite Hperm. }
  split. { apply sortSort_sorted, Less_reverse_order. }
  split; [done|].
  split. { rewrite cap_sortSlice by done. done. }
  split. { rewrite Hsum'. done. }
  split.
  { intros n. rewrite Hslot', Hsl, slot_replicate.
    by rewrite (countLen_perm _ _ _ Hperm). }
  destruct Hlast as [Hlast|[Hle ->]]; [by left|]. right.
  destruct r.2 as [|x t]; [simpl in H64; lia|]. simpl. f_equal.
  inversion Hle; inversion Hall; subst. lia.
Qed.

(** ** Building the concordance *)

Lemma size_le_sumValues (m : gmap string Z) :
  (forall w v, m !! w = Some v -> 1 <= v) -> Z.of_nat (size m) <= sumValues m.
Proof.
  induction m as [|w v m Hfresh IH] using map_ind; intros Hpos.
  - rewrite map_size_empty, sumValues_empty. lia.
  - rewrite map_size_insert_None, sumValues_insert_fresh by done.
    assert (1 <= v) by (apply (Hpos w); apply lookup_insert_eq).
    assert (Z.of_nat (size m) <= sumValues m).
    { apply IH. intros w' v' E. apply (Hpos w').
      rewrite lookup_insert_ne; [done|]. intros ->. congruence. }
    lia.
Qed.

Lemma WordCount_size (rt : GoRuntime) tokens cs m total :
  Z.of_nat (length tokens) <= maxInt ->
  V1.WordCount tokens cs = Ok (m, total) ->
  Z.of_nat (size m) <= Z.of_nat (length tokens).
Proof.
  intros Hlen Hr.
  destruct (WordCount_spec rt tokens cs Hlen) as (m' & total' & Hr' & _ & _ & Hv & Hs).
  rewrite Hr in Hr'. injection Hr' as <- <-.
  assert (Z.of_nat (size m) <= sumValues m).
  { apply size_le_sumValues. intros w v E. apply Hv in E. lia. }
  lia.
Qed.

(** The keys the scanning loop leaves are the keys it found and the words
    of the tokens. *)
Lemma scanLoop_keys (rt : GoRuntime) cs tokens m total m' total' :
  V1.scanLoop cs tokens m total = Ok (m', total') ->
  forall w, is_Some (m' !! w) <->
            is_Some (m !! w) \/ exists t, t ∈ tokens /\ V1.scanWord cs t = Ok w.
Proof.
  revert m total. induction tokens as [|text rest IH]; intros m total;
    cbn [V1.scanLoop].
  - intros [= <- <-] w. split; [by left|].
    intros [H|(t & Ht & _)]; [done|]. inversion Ht.
  - intros H. bind_inv H as word Hword. intros w.
    rewrite (IH _ _ H w), lookup_insert_is_Some. split.
    + intros [[->|[_ Hm]]|(t & Ht & Hw)].
      * right. exists text. split; [apply list_elem_of_here|done].
      * by left.
      * right. exists t. split; [by apply list_elem_of_further|done].
    + intros [Hm|(t & Ht & Hw)].
      * left. destruct (decide (word = w)); [by left|by right].
      * apply elem_of_cons in Ht as [->|Ht].
        -- left. left. congruence.
        -- right. by exists t.
Qed.

(** The keys of the frequency map are the non-empty words of the tokens. *)
Lemma WordCount_keys (rt : GoRuntime) tokens cs m total :
  V1.WordCount tokens cs = Ok (m, total) ->
  forall w, is_Some (m !! w) <->
            w <> ""%string /\ exists t, t ∈ tokens /\ V1.scanWord cs t = Ok w.
Proof.
  unfold V1.WordCount. intros H. bind_inv H as r Hloop. destruct r as [m0 total0].
  injection H as <- <-. intros w. simpl.
  rewrite lookup_delete_is_Some, (scanLoop_keys rt _ _ _ _ _ _ Hloop w).
  rewrite lookup_empty. split.
  - intros [Hne [H|H]]; [by destruct H|]. split; [congruence|done].
  - intros [Hne H]. split; [congruence|by right].
Qed.

Lemma WordCount_total (rt : GoRuntime) tokens cs :
  exists m total, V1.WordCount tokens cs = Ok (m, total).
Proof.
  unfold V1.WordCount.
  assert (H : forall m total, exists r, V1.scanLoop cs tokens m total = Ok r).
  { induction tokens as [|text rest IH]; intros m total; cbn [V1.scanLoop]; [eauto|].
    destruct (scanWord_total rt cs text) as [w ->]. cbn [bind]. apply IH. }
  destruct (H ∅ 0) as [[m total] ->]. simpl. eauto.
Qed.

Lemma NewConcordance_V1_unfold (rt : GoRuntime) tokens cs n :
  V1.NewConcordance tokens cs n
  = do r <- V1.WordCount tokens cs;
    do c' <- V1.process (counted (fst r) (snd r));
    V1.TruncateTopWords n c'.
Proof. reflexivity. Qed.

Lemma NewConcordance_V2_unfold (rt : GoRuntime) tokens cs n :
  V2.NewConcordance tokens cs n
  = do r <- V1.WordCount tokens cs;
    do c' <- V1.process (counted (fst r) (snd r));
    V2.TruncateTopWords n c'.
Proof. reflexivity. Qed.

Lemma NewConcordance_V1_inv (rt : GoRuntime) tokens cs n c :
  V1.NewConcordance tokens cs n = Ok c ->
  exists m total cp,
    V1.WordCount tokens cs = Ok (m, total) /\
    V1.process (counted m total) = Ok cp /\
    V1.TruncateTopWords n cp = Ok c.
Proof.
  rewrite NewConcordance_V1_unfold. intros H.
  bind_inv H as r Hr. bind_inv H as cp Hp. destruct r as [m total].
  by exists m, total, cp.
Qed.

(** What [TruncateTopWords] of the first variant returns: the concordance
    itself, or the concordance with the first [n] most used words. *)
Lemma TruncateTopWords_V1_cases n c :
  slice_wf (MostUsed c) ->
  ((n <= 0 \/ Z.of_nat (slen (MostUsed c)) <= n) /\ V1.TruncateTopWords n c = Ok c)
  \/
  (0 < n < Z.of_nat (slen (MostUsed c)) /\
   V1.TruncateTopWords n c
   = Ok (mkConcordance (Counts c) (Total c) (Unique c)
           (mkSlice (arr (MostUsed c)) (Z.to_nat n)) (LengthHistogram c))).
Proof.
  intros Hwf. unfold V1.TruncateTopWords, slice_wf in *.
  destruct (Z.ltb_spec 0 n); simpl; [|left; split; [lia|done]].
  destruct (Z.ltb_spec n (Z.of_nat (slen (MostUsed c)))); simpl;
    [|left; split; [lia|done]].
  right. split; [lia|]. unfold reslice.
  destruct (Z.ltb_spec n 0); [lia|].
  destruct (Z.ltb_spec (Z.of_nat (cap (MostUsed c))) n); [lia|]. reflexivity.
Qed.

Lemma Sorted_take {A : Type} (R : A -> A -> Prop) n l :
  Sorted R l -> Sorted R (take n l).
Proof.
  intros H. revert n. induction H as [|a l Hs IH Hhd]; intros [|n]; simpl;
    try constructor.
  - apply IH.
  - destruct Hhd as [|b l' Hab]; destruct n; simpl; by constructor.
Qed.

Lemma Sorted_adjacent {A : Type} (R : A -> A -> Prop) l i a b :
  Sorted R l -> l !! i = Some a -> l !! S i = Some b -> R a b.
Proof.
  intros H. revert i. induction H as [|x l Hs IH Hhd]; intros [|i] Ha Hb;
    simpl in *; try discriminate.
  - injection Ha as ->. destruct Hhd as [|y l' Hxy]; simpl in *; [discriminate|].
    by injection Hb as ->.
  - by eapply IH.
Qed.

Lemma take_elems {A : Type} (s : slice A) (n : nat) :
  (n <= slen s)%nat -> elems (mkSlice (arr s) n) = take n (elems s).
Proof. intros H. unfold elems. simpl. rewrite take_take. f_equal. lia. Qed.

(** The facts about a concordance that [NewConcordance] of the first
    variant returns. *)
Lemma NewConcordance_V1_Ok (rt : GoRuntime) tokens cs n c :
  Z.of_nat (length tokens) <= maxInt ->
  V1.NewConcordance tokens cs n = Ok c ->
  V1.WordCount tokens cs = Ok (Counts c, Total c) /\
  Unique c = Z.of_nat (size (Counts c)) /\
  sumZ (LengthHistogram c) = Unique c /\
  (forall k, slot (LengthHistogram c) k
             = Z.of_nat (countLen k (map_to_list (Counts c)))) /\
  ((exists v, last (LengthHistogram c) = Some v /\ 0 < v)
   \/ LengthHistogram c = [0]) /\
  IsSorted (sortReverse V1.Less) (elems (MostUsed c)) /\
  (exists sorted, sorted ≡ₚ toWordTuple <$> map_to_list (Counts c) /\
     elems (MostUsed c)
     = if (0 <? n) && (n <? Z.of_nat (size (Counts c)))
       then take (Z.to_nat n) sorted else sorted).
Proof.
  intros Hlen H.
  destruct (NewConcordance_V1_inv rt _ _ _ _ H) as (m & total & cp & Hwc & Hp & Ht).
  pose proof (WordCount_size rt _ _ _ _ Hlen Hwc) as Hsize.
  destruct (process_Ok rt (counted m total) cp eq_refl ltac:(simpl; lia) Hp)
    as (Hc & Htot & Hu & Hperm & Hsorted & Hslen & Hcap & Hsum & Hslot & Hlast).
  simpl in Hc, Htot, Hu, Hperm, Hslen, Hcap, Hsum, Hslot.
  assert (Hwf : slice_wf (MostUsed cp)) by (unfold slice_wf; lia).
  destruct (TruncateTopWords_V1_cases n cp Hwf) as [[Hn Hr]|[Hn Hr]];
    rewrite Hr in Ht; injection Ht as <-; simpl; rewrite ?Hc, ?Htot, ?Hu.
  - split; [done|]. split; [done|]. split; [done|]. split; [done|].
    split; [done|]. split; [done|].
    exists (elems (MostUsed cp)). split; [done|].
    rewrite Hslen in Hn.
    destruct (Z.ltb_spec 0 n); simpl; [|done].
    by destruct (Z.ltb_spec n (Z.of_nat (size m))); [lia|].
  - split; [done|]. split; [done|]. split; [done|]. split; [done|].
    split; [done|]. rewrite take_elems by lia.
    split; [by apply Sorted_take|].
    exists (elems (MostUsed cp)). split; [done|].
    rewrite Hslen in Hn.
    destruct (Z.ltb_spec 0 n); [|lia].
    by destruct (Z.ltb_spec n (Z.of_nat (size m))); [|lia].
Qed.

Lemma sortSlice_wf (rt : GoRuntime) {A : Type} (less : A -> A -> bool) (s : slice A) :
  slice_wf s -> slice_wf (sortSlice less s).
Proof.
  intros Hwf. unfold slice_wf. rewrite cap_sortSlice by done. exact Hwf.
Qed.

(** The ranking [process] leaves is in order, whatever the counts are. *)
Lemma process_sorted (rt : GoRuntime) c cp :
  V1.process c = Ok cp ->
  slice_wf (MostUsed cp) /\ IsSorted (sortReverse V1.Less) (elems (MostUsed cp)).
Proof.
  unfold V1.process. intros H.
  bind_inv H as hist0 Hh. bind_inv H as mu0 Hm. bind_inv H as r Hloop.
  unfold V1.trimHist in H. bind_inv H as h Ht. injection H as <-.
  cbn [MostUsed].
  assert (Hwf0 : slice_wf mu0).
  { unfold makeCap in Hm. destruct (Unique c <? 0); [discriminate|].
    injection Hm as <-. unfold slice_wf, cap. simpl. lia. }
  pose proof (rangeLoop_wf rt _ _ _ _ Hloop Hwf0) as Hwf.
  split; [by apply sortSlice_wf|].
  rewrite elems_sortSlice by done. apply sortSort_sorted, Less_reverse_order.
Qed.

(** [process] completes when every key is shorter than 128 bytes. *)
Lemma process_short (rt : GoRuntime) c :
  0 <= Unique c ->
  Forall (fun kv => (String.length (fst kv) < 128)%nat) (map_to_list (Counts c)) ->
  exists cp, V1.process c = Ok cp.
Proof.
  intros Hu Hshort. unfold V1.process.
  change (makeInts 64) with (Ok (replicate 64 0)). cbn [bind].
  unfold makeCap. destruct (Z.ltb_spec (Unique c) 0); [lia|]. cbn [bind].
  destruct (rangeLoop_fits rt (mapRange (Counts c))
              (mkSlice (replicate (Z.to_nat (Unique c)) zeroWordTuple) 0)
              (replicate 64 0)) as (r & Hr & Hlen).
  { by rewrite (mapRange_perm (Counts c)). }
  { left. apply length_replicate. }
  rewrite Hr. cbn [bind].
  destruct (trimHist_cases
              (mkConcordance (Counts c) (Total c) (Unique c)
                 (sortSlice (sortReverse V1.Less) r.1) r.2))
    as (h' & zs & Htrim & _).
  { cbn [LengthHistogram]. intros E. rewrite E in Hlen. simpl in Hlen. lia. }
  rewrite Htrim. eauto.
Qed.

(** [NewConcordance] of the first variant returns a concordance when every
    word is shorter than 128 bytes. *)
Lemma NewConcordance_V1_short (rt : GoRuntime) tokens cs n :
  (forall t w, t ∈ tokens -> V1.scanWord cs t = Ok w -> (String.length w < 128)%nat) ->
  exists c, V1.NewConcordance tokens cs n = Ok c.
Proof.
  intros Hshort. rewrite NewConcordance_V1_unfold.
  destruct (WordCount_total rt tokens cs) as (m & total & Hwc). rewrite Hwc.
  cbn [bind fst snd].
  destruct (process_short rt (counted m total)) as [cp Hp].
  { simpl. lia. }
  { simpl. apply Forall_forall. intros [w v] Hin.
    apply elem_of_map_to_list in Hin.
    destruct (proj1 (WordCount_keys rt _ _ _ _ Hwc w)) as (_ & t & Ht & Hw); [by eexists|].
    simpl. by eapply Hshort. }
  rewrite Hp. cbn [bind].
  destruct (process_sorted rt _ _ Hp) as [Hwf _].
  destruct (TruncateTopWords_V1_cases n cp Hwf) as [[_ ->]|[_ ->]]; eauto.
Qed.

(** C5: on every token sequence an [int] can count, the slots of the
    histogram of the concordance that [NewConcordance] returns add up to
    [Unique], which is the number of keys of the frequency map. *)
Theorem histogram_sum_is_Unique (rt : GoRuntime) (tokens : list string)
    (cs : bool) (n : Z) (c : Concordance) :
  Z.of_nat (length tokens) <= maxInt ->
  V1.NewConcordance tokens cs n = Ok c ->
  sumZ (LengthHistogram c) = Unique c /\
  Unique c = Z.of_nat (size (Counts c)) /\
  (forall k, slot (LengthHistogram c) k
             = Z.of_nat (countLen k (map_to_list (Counts c)))).
Proof.
  intros Hlen H.
  destruct (NewConcordance_V1_Ok rt _ _ _ _ Hlen H) as (_ & Hu & Hsum & Hslot & _).
  done.
Qed.

(** C6: in the concordance that [NewConcordance] returns, each entry of
    [MostUsed] has a count greater than or equal to the count of the entry
    after it. *)
Theorem MostUsed_sorted (rt : GoRuntime) (tokens : list string) (cs : bool)
    (n : Z) (c : Concordance) :
  V1.NewConcordance tokens cs n = Ok c ->
  forall i a b,
    elems (MostUsed c) !! i = Some a ->
    elems (MostUsed c) !! S i = Some b ->
    Count a >= Count b.
Proof.
  intros H i a b Ha Hb.
  destruct (NewConcordance_V1_inv rt _ _ _ _ H) as (m & total & cp & _ & Hp & Ht).
  destruct (process_sorted rt _ _ Hp) as [Hwf Hsorted].
  assert (Hs : IsSorted (sortReverse V1.Less) (elems (MostUsed c))).
  { destruct (TruncateTopWords_V1_cases n cp Hwf) as [[_ Hr]|[Hn Hr]];
      rewrite Hr in Ht; injection Ht as <-; [done|].
    cbn [MostUsed]. rewrite take_elems by lia. by apply Sorted_take. }
  pose proof (Sorted_adjacent _ _ _ _ _ Hs Ha Hb) as Hab.
  unfold sortReverse, V1.Less in Hab. apply Z.ltb_ge in Hab. lia.
Qed.

Lemma histogram_sum_is_Unique_witness :
  match @V1.NewConcordance refRuntime sampleTokens false 2 with
  | Ok c =>
      Z.of_nat (length sampleTokens) <= maxInt /\
      sumZ (LengthHistogram c) = Unique c /\
      Unique c = Z.of_nat (size (Counts c)) /\
      (forall k, slot (LengthHistogram c) k
                 = Z.of_nat (countLen k (map_to_list (Counts c))))
  | _ => False
  end.
Proof.
  assert (Hlen : Z.of_nat (length sampleTokens) <= maxInt) by (vm_compute; discriminate).
  destruct (@V1.NewConcordance refRuntime sampleTokens false 2) as [c| |] eqn:E.
  - split; [exact Hlen|].
    exact (histogram_sum_is_Unique refRuntime sampleTokens false 2 c Hlen E).
  - vm_compute in E. discriminate E.
  - vm_compute in E. discriminate E.
Defined.

Lemma MostUsed_sorted_witness :
  match @V1.NewConcordance refRuntime sampleTokens false 2 with
  | Ok c =>
      forall i a b,
        elems (MostUsed c) !! i = Some a ->
        elems (MostUsed c) !! S i = Some b ->
        Count a >= Count b
  | _ => False
  end.
Proof.
  destruct (@V1.NewConcordance refRuntime sampleTokens false 2) as [c| |] eqn:E.
  - exact (MostUsed_sorted refRuntime sampleTokens false 2 c E).
  - vm_compute in E. discriminate E.
  - vm_compute in E. discriminate E.
Defined.

(** ** A long word among short ones *)

Lemma countLen_pos n (entries : list (string * Z)) kv :
  kv ∈ entries -> String.length (fst kv) = n -> (1 <= countLen n entries)%nat.
Proof.
  intros Hin Hn. unfold countLen.
  assert (Hf : kv ∈ filter (fun kv => String.length (fst kv) = n) entries)
    by (apply list_elem_of_filter; done).
  destruct (filter _ entries); [inversion Hf|simpl; lia].
Qed.

Lemma countLen_pos_inv n (entries : list (string * Z)) :
  (1 <= countLen n entries)%nat ->
  exists kv, kv ∈ entries /\ String.length (fst kv) = n.
Proof.
  unfold countLen. intros H.
  destruct (filter (fun kv => String.length (fst kv) = n) entries) as [|kv l] eqn:E;
    [simpl in H; lia|].
  assert (Hf : kv ∈ filter (fun kv => String.length (fst kv) = n) entries)
    by (rewrite E; apply list_elem_of_here).
  apply list_elem_of_filter in Hf as [Hn Hin]. eauto.
Qed.

Lemma slot_pos_lookup hist n : 0 < slot hist n -> exists v, hist !! n = Some v /\ 0 < v.
Proof. unfold slot. destruct (hist !! n) as [v|]; simpl; [eauto|lia]. Qed.

(** C8: when an [int] can count the tokens, every word has at most 70
    bytes and some word has exactly 70, [NewConcordance] returns a
    concordance (it does not panic), whose trimmed histogram has 71 slots,
    the last of which, at index 70, counts that word. *)
Theorem long_word_histogram (rt : GoRuntime) (tokens : list string) (cs : bool) (n : Z) :
  Z.of_nat (length tokens) <= maxInt ->
  (forall t w, t ∈ tokens -> V1.scanWord cs t = Ok w -> (String.length w <= 70)%nat) ->
  (exists t w, t ∈ tokens /\ V1.scanWord cs t = Ok w /\ String.length w = 70%nat) ->
  exists c, V1.NewConcordance tokens cs n = Ok c /\
    (71 <= length (LengthHistogram c))%nat /\
    length (LengthHistogram c) = 71%nat /\
    exists v, LengthHistogram c !! 70%nat = Some v /\ 1 <= v.
Proof.
  intros Hlen Hshort (t & w & Ht & Hw & Hw70).
  destruct (NewConcordance_V1_short rt tokens cs n) as [c Hc].
  { intros t' w' Ht' Hw'. specialize (Hshort t' w' Ht' Hw'). lia. }
  exists c. split; [done|].
  destruct (NewConcordance_V1_Ok rt _ _ _ _ Hlen Hc)
    as (Hwc & _ & _ & Hslot & Hlast & _).
  assert (Hkey : is_Some (Counts c !! w)).
  { apply (WordCount_keys rt _ _ _ _ Hwc w). split; [|by exists t].
    intros ->. simpl in Hw70. lia. }
  destruct Hkey as [v Hv].
  assert (H70 : 0 < slot (LengthHistogram c) 70).
  { rewrite Hslot.
    pose proof (countLen_pos 70 (map_to_list (Counts c)) (w, v)
                  ltac:(by apply elem_of_map_to_list) Hw70). lia. }
  destruct (slot_pos_lookup _ _ H70) as (v70 & Hv70 & Hpos).
  pose proof (lookup_lt_Some _ _ _ Hv70) as Hlt.
  assert (Hlen71 : length (LengthHistogram c) = 71%nat).
  { destruct Hlast as [(vl & Hl & Hvl)|E]; [|rewrite E in Hlt; simpl in Hlt; lia].
    rewrite last_lookup in Hl.
    assert (Hsl : 0 < slot (LengthHistogram c) (pred (length (LengthHistogram c))))
      by (unfold slot; by rewrite Hl).
    rewrite Hslot in Hsl.
    destruct (countLen_pos_inv (pred (length (LengthHistogram c)))
                (map_to_list (Counts c)) ltac:(lia)) as ([w' v'] & Hin & Hwl).
    apply elem_of_map_to_list in Hin.
    destruct (proj1 (WordCount_keys rt _ _ _ _ Hwc w')) as (_ & t' & Ht' & Hw');
      [by eexists|].
    specialize (Hshort t' w' Ht' Hw'). simpl in Hwl. lia. }
  split; [lia|]. split; [done|]. exists v70. split; [done|lia].
Qed.

Lemma long_word_histogram_witness :
  Z.of_nat (length [longWord 70; "x"%string]) <= maxInt /\
  (forall t w, t ∈ [longWord 70; "x"%string] ->
     @V1.scanWord refRuntime true t = Ok w -> (String.length w <= 70)%nat) /\
  exists c, @V1.NewConcordance refRuntime [longWord 70; "x"%string] true 0 = Ok c /\
    (71 <= length (LengthHistogram c))%nat /\
    length (LengthHistogram c) = 71%nat /\
    exists v, LengthHistogram c !! 70%nat = Some v /\ 1 <= v.
Proof.
  assert (Hlen : Z.of_nat (length [longWord 70; "x"%string]) <= maxInt)
    by (vm_compute; discriminate).
  assert (Hshort : forall t w, t ∈ [longWord 70; "x"%string] ->
            @V1.scanWord refRuntime true t = Ok w -> (String.length w <= 70)%nat).
  { intros t w Ht Hw.
    apply elem_of_cons in Ht as [->|Ht];
      [|apply elem_of_cons in Ht as [->|Ht]; [|inversion Ht]];
      vm_compute in Hw; injection Hw as <-; vm_compute; lia. }
  split; [exact Hlen|]. split; [exact Hshort|].
  apply (long_word_histogram refRuntime [longWord 70; "x"%string] true 0 Hlen Hshort).
  exists (longWord 70), (longWord 70).
  split; [apply list_elem_of_here|]. split; reflexivity.
Defined.

(** ** The trimmed histogram *)

Lemma Forall_zero_of_bounds (l : list Z) :
  Forall (fun v => 0 <= v) l -> Forall (fun v => v <= 0) l -> Forall (fun v => v = 0) l.
Proof.
  induction l as [|x l IH]; intros H1 H2; [constructor|].
  inversion H1; inversion H2; subst. constructor; [lia|by apply IH].
Qed.

(** [trimHist] on a histogram of counts. *)
Lemma trimHist_counts c :
  LengthHistogram c <> [] ->
  Forall (fun v => 0 <= v) (LengthHistogram c) ->
  exists h' zs,
    V1.trimHist c = Ok (mkConcordance (Counts c) (Total c) (Unique c) (MostUsed c) h') /\
    V2.trimHist c = Ok (mkConcordance (Counts c) (Total c) (Unique c) (MostUsed c) h') /\
    LengthHistogram c = h' ++ zs /\
    Forall (fun v => v = 0) zs /\
    ((exists v, last h' = Some v /\ v <> 0)
     \/ (Forall (fun v => v = 0) (LengthHistogram c) /\ h' = [0])).
Proof.
  intros Hne Hpos.
  destruct (trimHist_cases c Hne) as (h' & zs & Hr & Happ & Hzs & Hlast).
  exists h', zs. split; [done|]. split; [by rewrite V2_trimHist_eq|].
  split; [done|]. split.
  { apply Forall_zero_of_bounds; [|done]. rewrite Happ in Hpos.
    by apply Forall_app in Hpos as [_ ?]. }
  destruct Hlast as [(v & Hv & Hv0)|[Hall ->]].
  - left. exists v. split; [done|lia].
  - right. pose proof (Forall_zero_of_bounds _ Hpos Hall) as Hz. split; [done|].
    destruct (LengthHistogram c) as [|x t]; [done|].
    inversion Hz; subst. reflexivity.
Qed.

Lemma NewConcordance_V1_empty (rt : GoRuntime) cs n :
  exists c, V1.NewConcordance [] cs n = Ok c /\ LengthHistogram c = [0].
Proof.
  destruct (NewConcordance_V1_short rt [] cs n) as [c Hc].
  { intros t w Ht. inversion Ht. }
  exists c. split; [done|].
  assert (Hlen : Z.of_nat (length (@nil string)) <= maxInt) by (unfold maxInt; simpl; lia).
  destruct (NewConcordance_V1_Ok rt _ _ _ _ Hlen Hc)
    as (Hwc & _ & _ & Hslot & Hlast & _).
  destruct Hlast as [(v & Hl & Hv)|E]; [|done].
  assert (Hcounts : Counts c = ∅).
  { apply map_empty. intros w. apply eq_None_not_Some. intros Hs.
    apply (WordCount_keys rt _ _ _ _ Hwc w) in Hs as (_ & t & Ht & _). inversion Ht. }
  rewrite last_lookup in Hl.
  specialize (Hslot (pred (length (LengthHistogram c)))).
  unfold slot in Hslot. rewrite Hl, Hcounts, map_to_list_empty in Hslot.
  unfold countLen in Hslot. simpl in Hslot. lia.
Qed.

(** C9: [trimHist], in both variants, removes from a histogram of counts
    a run of zero slots at its end and leaves a last slot that is not
    zero, unless all slots are zero, and then it leaves the single slot of
    index 0; so the histogram of a concordance that [NewConcordance]
    returns ends in a slot that is not zero or is the single zero slot,
    which it is for the empty corpus. *)
Theorem trimHist_trims :
  (forall c,
     LengthHistogram c <> [] ->
     Forall (fun v => 0 <= v) (LengthHistogram c) ->
     exists h' zs,
       V1.trimHist c
       = Ok (mkConcordance (Counts c) (Total c) (Unique c) (MostUsed c) h') /\
       V2.trimHist c
       = Ok (mkConcordance (Counts c) (Total c) (Unique c) (MostUsed c) h') /\
       LengthHistogram c = h' ++ zs /\
       Forall (fun v => v = 0) zs /\
       ((exists v, last h' = Some v /\ v <> 0)
        \/ (Forall (fun v => v = 0) (LengthHistogram c) /\ h' = [0]))) /\
  (forall (rt : GoRuntime) tokens cs n c,
     Z.of_nat (length tokens) <= maxInt ->
     V1.NewConcordance tokens cs n = Ok c ->
     (exists v, last (LengthHistogram c) = Some v /\ v <> 0)
     \/ LengthHistogram c = [0]) /\
  (forall (rt : GoRuntime) cs n,
     exists c, V1.NewConcordance [] cs n = Ok c /\ LengthHistogram c = [0]).
Proof.
  split; [exact trimHist_counts|]. split; [|exact NewConcordance_V1_empty].
  intros rt tokens cs n c Hlen H.
  destruct (NewConcordance_V1_Ok rt _ _ _ _ Hlen H) as (_ & _ & _ & _ & Hlast & _).
  destruct Hlast as [(v & Hv & Hpos)|E]; [left|by right].
  exists v. split; [done|lia].
Qed.

Lemma trimHist_trims_witness :
  exists h' zs,
    V1.trimHist (mkConcordance ∅ 0 0 (mkSlice [] 0) [0; 2; 0; 1; 0; 0])
    = Ok (mkConcordance ∅ 0 0 (mkSlice [] 0) h') /\
    V2.trimHist (mkConcordance ∅ 0 0 (mkSlice [] 0) [0; 2; 0; 1; 0; 0])
    = Ok (mkConcordance ∅ 0 0 (mkSlice [] 0) h') /\
    [0; 2; 0; 1; 0; 0] = h' ++ zs /\
    Forall (fun v => v = 0) zs /\
    ((exists v, last h' = Some v /\ v <> 0)
     \/ (Forall (fun v => v = 0) [0; 2; 0; 1; 0; 0] /\ h' = [0])).
Proof.
  apply (proj1 trimHist_trims (mkConcordance ∅ 0 0 (mkSlice [] 0) [0; 2; 0; 1; 0; 0])).
  - discriminate.
  - repeat constructor; lia.
Defined.

(** ** A word of 128 bytes *)

Lemma histStep_64_128 : V1.histStep (replicate 64 0) 128 = Panic.
Proof. vm_compute. reflexivity. Qed.

Lemma mapRange_singleton (rt : GoRuntime) w v : mapRange {[w := v]} = [(w, v)].
Proof.
  apply Permutation_singleton_r.
  rewrite (mapRange_perm {[w := v]}). by rewrite map_to_list_singleton.
Qed.

Lemma WordCount_single (rt : GoRuntime) cs w :
  V1.scanWord cs w = Ok w -> w <> ""%string ->
  V1.WordCount [w] cs = Ok ({[w := 1]}, 1).
Proof.
  intros Hw Hne. unfold V1.WordCount. cbn [V1.scanLoop]. rewrite Hw. cbn [bind fst snd].
  rewrite lookup_empty. change (wrap64 (default 0 None + 1)) with 1.
  change (wrap64 (0 + 1)) with 1.
  rewrite delete_insert_ne by done. rewrite delete_empty. by rewrite insert_empty.
Qed.

Lemma scanWord_longWord_128 (rt : GoRuntime) cs :
  V1.scanWord cs (longWord 128) = Ok (longWord 128).
Proof.
  unfold V1.scanWord. destruct cs.
  - vm_compute. reflexivity.
  - rewrite stringsToLower_ascii by (vm_compute; reflexivity).
    vm_compute. reflexivity.
Qed.

(** [process] panics when the first entry the range yields has a key of
    128 bytes: the histogram is doubled to 128 slots, and slot 128 is out
    of range. *)
Lemma process_first_key_128 (rt : GoRuntime) c kv rest :
  mapRange (Counts c) = kv :: rest -> String.length (fst kv) = 128%nat ->
  0 <= Unique c -> V1.process c = Panic.
Proof.
  intros Hrange Hlen Hu. unfold V1.process.
  change (makeInts 64) with (Ok (replicate 64 0)). cbn [bind].
  unfold makeCap. destruct (Z.ltb_spec (Unique c) 0); [lia|]. cbn [bind].
  rewrite Hrange. cbn [V1.rangeLoop]. rewrite Hlen, histStep_64_128. reflexivity.
Qed.

(** C2, at a failing input: on the corpus whose one token is a word of 128
    letters, [NewConcordance] panics in both variants, for every runtime,
    flag and [topWords]; the specification says the increment is never out of
    range. *)
Theorem histogram_grows_by_one_doubling (rt : GoRuntime) (cs : bool) (n : Z) :
  V1.NewConcordance [longWord 128] cs n = Panic /\
  V2.NewConcordance [longWord 128] cs n = Panic.
Proof.
  assert (H : V1.process (counted {[longWord 128 := 1]} 1) = Panic).
  { apply (process_first_key_128 rt _ (longWord 128, 1) []).
    - apply mapRange_singleton.
    - vm_compute. reflexivity.
    - simpl. lia. }
  rewrite NewConcordance_V1_unfold, NewConcordance_V2_unfold.
  rewrite (WordCount_single rt cs (longWord 128) (scanWord_longWord_128 rt cs))
    by discriminate.
  cbn [bind fst snd]. rewrite H. split; reflexivity.
Qed.

(** ** Truncating the ranking *)

Lemma TruncateTopWords_V1_noop n c :
  n <= 0 \/ Z.of_nat (slen (MostUsed c)) <= n -> V1.TruncateTopWords n c = Ok c.
Proof.
  intros H. unfold V1.TruncateTopWords.
  destruct (Z.ltb_spec 0 n); simpl; [|reflexivity].
  destruct (Z.ltb_spec n (Z.of_nat (slen (MostUsed c)))); simpl; [lia|reflexivity].
Qed.

Lemma TruncateTopWords_V1_safe n c :
  slice_wf (MostUsed c) -> exists c', V1.TruncateTopWords n c = Ok c'.
Proof.
  intros Hwf. destruct (TruncateTopWords_V1_cases n c Hwf) as [[_ ->]|[_ ->]]; eauto.
Qed.

Lemma TruncateTopWords_V1_idempotent n c c1 :
  slice_wf (MostUsed c) ->
  V1.TruncateTopWords n c = Ok c1 -> V1.TruncateTopWords n c1 = Ok c1.
Proof.
  intros Hwf H.
  destruct (TruncateTopWords_V1_cases n c Hwf) as [[Hn Hr]|[Hn Hr]];
    rewrite Hr in H; injection H as <-.
  - by apply TruncateTopWords_V1_noop.
  - apply TruncateTopWords_V1_noop. right. simpl. lia.
Qed.

(** C1, at failing inputs: on a concordance of one word, [TruncateTopWords]
    of the second variant empties [MostUsed] for [n = 0] and panics for
    [n = -1] and for [n = 2], where the specification says it is a no-op and
    never out of bounds; the first variant returns the concordance
    unchanged in the three cases. *)
Theorem TruncateTopWords_V2_not_noop :
  omap (fun c => elems (MostUsed c)) (V2.TruncateTopWords 0 oneWord) = Ok [] /\
  V2.TruncateTopWords (-1) oneWord = Panic /\
  V2.TruncateTopWords 2 oneWord = Panic /\
  V1.TruncateTopWords 0 oneWord = Ok oneWord /\
  V1.TruncateTopWords (-1) oneWord = Ok oneWord /\
  V1.TruncateTopWords 2 oneWord = Ok oneWord.
Proof. repeat split; reflexivity. Qed.

(** ** The two variants compared *)

(** What the second variant returns where the first variant's word count
    and [process] complete: it panics for a negative [topwords] and for
    one above the number of words, and cuts the ranking otherwise. *)
Lemma NewConcordance_V2_cases (rt : GoRuntime) tokens cs n m total cp :
  Z.of_nat (length tokens) <= maxInt ->
  V1.WordCount tokens cs = Ok (m, total) ->
  V1.process (counted m total) = Ok cp ->
  V2.NewConcordance tokens cs n
  = if (n <? 0) || (Z.of_nat (size m) <? n) then Panic
    else Ok (mkConcordance (Counts cp) (Total cp) (Unique cp)
               (mkSlice (arr (MostUsed cp)) (Z.to_nat n)) (LengthHistogram cp)).
Proof.
  intros Hlen Hwc Hp.
  pose proof (WordCount_size rt _ _ _ _ Hlen Hwc) as Hsize.
  destruct (process_Ok rt (counted m total) cp eq_refl ltac:(simpl; lia) Hp)
    as (_ & _ & _ & _ & _ & _ & Hcap & _).
  simpl in Hcap.
  rewrite NewConcordance_V2_unfold, Hwc. cbn [bind fst snd]. rewrite Hp. cbn [bind].
  unfold V2.TruncateTopWords, reslice. rewrite Hcap.
  by destruct ((n <? 0) || (Z.of_nat (size m) <? n)).
Qed.

(** Within [0 < topWords <= Unique] the two variants return the same
    concordance. *)
Lemma variants_agree_in_range (rt : GoRuntime) tokens cs n c :
  Z.of_nat (length tokens) <= maxInt ->
  V1.NewConcordance tokens cs n = Ok c ->
  0 < n <= Unique c ->
  V2.NewConcordance tokens cs n = Ok c.
Proof.
  intros Hlen H Hn.
  destruct (NewConcordance_V1_inv rt _ _ _ _ H) as (m & total & cp & Hwc & Hp & Ht).
  pose proof (WordCount_size rt _ _ _ _ Hlen Hwc) as Hsize.
  destruct (process_Ok rt (counted m total) cp eq_refl ltac:(simpl; lia) Hp)
    as (_ & _ & Hu & _ & _ & Hslen & Hcap & _).
  simpl in Hu, Hslen, Hcap.
  rewrite (NewConcordance_V2_cases rt _ _ _ _ _ _ Hlen Hwc Hp).
  assert (Hwf : slice_wf (MostUsed cp)) by (unfold slice_wf; lia).
  destruct (TruncateTopWords_V1_cases n cp Hwf) as [[Hn' Hr]|[Hn' Hr]];
    rewrite Hr in Ht; injection Ht as <-; simpl in Hn; rewrite ?Hu in Hn.
  - destruct (Z.ltb_spec n 0); [lia|].
    destruct (Z.ltb_spec (Z.of_nat (size m)) n); [lia|]. simpl.
    assert (Z.to_nat n = slen (MostUsed cp)) as -> by lia.
    by destruct cp as [? ? ? [? ?] ?].
  - destruct (Z.ltb_spec n 0); [lia|].
    destruct (Z.ltb_spec (Z.of_nat (size m)) n); [lia|]. reflexivity.
Qed.

(** Before the truncation the two variants run the same code: where the
    first does not return a concordance, the second has the same outcome. *)
Lemma variants_same_failure (rt : GoRuntime) tokens cs n :
  (forall c, V1.NewConcordance tokens cs n <> Ok c) ->
  V2.NewConcordance tokens cs n = V1.NewConcordance tokens cs n.
Proof.
  rewrite NewConcordance_V1_unfold, NewConcordance_V2_unfold. intros H.
  destruct (V1.WordCount tokens cs) as [r| |]; cbn [bind] in *; try reflexivity.
  destruct (V1.process (counted r.1 r.2)) as [cp| |] eqn:Hp; cbn [bind] in *;
    try reflexivity.
  destruct (process_sorted rt _ _ Hp) as [Hwf _].
  destruct (TruncateTopWords_V1_safe n cp Hwf) as [c' Hc'].
  by destruct (H c').
Qed.

Lemma scanWord_a (rt : GoRuntime) cs : V1.scanWord cs "a" = Ok "a"%string.
Proof.
  unfold V1.scanWord. destruct cs; [reflexivity|].
  by rewrite stringsToLower_ascii.
Qed.

(** C10, at failing inputs: for every runtime and flag, on the empty
    corpus with [topWords = 1] and on the corpus of the one token a with
    [topWords = -1] the first variant returns a concordance and the second
    panics; on that corpus with [topWords = 0] the first variant returns
    the whole ranking and the second an empty one. *)
Theorem variants_differ_on_topWords (rt : GoRuntime) (cs : bool) :
  ((exists c, V1.NewConcordance [] cs 1 = Ok c) /\
   V2.NewConcordance [] cs 1 = Panic) /\
  ((exists c, V1.NewConcordance ["a"%string] cs (-1) = Ok c) /\
   V2.NewConcordance ["a"%string] cs (-1) = Panic) /\
  (exists c1 c2,
     V1.NewConcordance ["a"%string] cs 0 = Ok c1 /\
     V2.NewConcordance ["a"%string] cs 0 = Ok c2 /\
     elems (MostUsed c1) = [mkWordTuple "a" 1] /\
     elems (MostUsed c2) = []).
Proof.
  assert (Hlen0 : Z.of_nat (length (@nil string)) <= maxInt) by (unfold maxInt; simpl; lia).
  assert (Hlen1 : Z.of_nat (length ["a"%string]) <= maxInt) by (unfold maxInt; simpl; lia).
  assert (Hshort : forall t w, t ∈ ["a"%string] -> V1.scanWord cs t = Ok w ->
                     (String.length w < 128)%nat).
  { intros t w Ht Hw. apply list_elem_of_singleton in Ht as ->.
    rewrite scanWord_a in Hw. injection Hw as <-. simpl. lia. }
  pose proof (WordCount_single rt cs "a" (scanWord_a rt cs) ltac:(discriminate)) as Hwc.
  split; [|split].
  - destruct (NewConcordance_V1_empty rt cs 1) as (c & Hc & _).
    split; [by exists c|].
    destruct (NewConcordance_V1_inv rt _ _ _ _ Hc) as (m & total & cp & Hwc0 & Hp & _).
    rewrite (NewConcordance_V2_cases rt _ _ 1 _ _ _ Hlen0 Hwc0 Hp).
    injection Hwc0 as <- <-. reflexivity.
  - destruct (NewConcordance_V1_short rt ["a"%string] cs (-1) Hshort) as [c Hc].
    split; [by exists c|].
    destruct (NewConcordance_V1_inv rt _ _ _ _ Hc) as (m & total & cp & Hwc' & Hp & _).
    rewrite (NewConcordance_V2_cases rt _ _ (-1) _ _ _ Hlen1 Hwc' Hp). reflexivity.
  - destruct (NewConcordance_V1_short rt ["a"%string] cs 0 Hshort) as [c1 Hc1].
    destruct (NewConcordance_V1_inv rt _ _ _ _ Hc1) as (m & total & cp & Hwc' & Hp & _).
    rewrite Hwc in Hwc'. injection Hwc' as <- <-.
    eexists c1, _. split; [done|]. split.
    { rewrite (NewConcordance_V2_cases rt _ _ 0 _ _ _ Hlen1 Hwc Hp).
      rewrite map_size_singleton. reflexivity. }
    destruct (NewConcordance_V1_Ok rt _ _ _ _ Hlen1 Hc1)
      as (Hwc1 & _ & _ & _ & _ & _ & sorted & Hperm & He).
    rewrite Hwc in Hwc1. injection Hwc1 as Hcounts _.
    rewrite <- Hcounts in Hperm, He. rewrite map_to_list_singleton in Hperm.
    apply Permutation_singleton_r in Hperm. rewrite Hperm in He.
    split; [exact He|]. reflexivity.
Qed.

(** * Further properties *)

(** ** The scrubber, continued *)

Lemma substring_full s : substring 0 (String.length s) s = s.
Proof. induction s as [|c s IH]; simpl; [reflexivity|by rewrite IH]. Qed.

Lemma alphaAt_substring s n m k :
  alphaAt (substring n m s) k = if (k <? m)%nat then alphaAt s (k + n) else false.
Proof.
  unfold alphaAt. destruct (Nat.ltb_spec k m).
  - by rewrite substring_correct1.
  - by rewrite substring_correct2.
Qed.

Lemma ScrubWord_no_alpha s :
  (forall k, alphaAt s k = false) -> V1.ScrubWord s = Ok ""%string.
Proof.
  intros Hno. destruct (ScrubWord_cases s) as [[_ H]|(i & j & _ & Hi & _)]; [done|].
  rewrite Hno in Hi. discriminate.
Qed.

(** The first and the last alphabetic byte determine the result. *)
Lemma ScrubWord_between s i j :
  alphaAt s i = true -> alphaAt s j = true ->
  (forall k, (k < i)%nat -> alphaAt s k = false) ->
  (forall k, (j < k)%nat -> alphaAt s k = false) ->
  V1.ScrubWord s = Ok (substring i (j + 1 - i) s).
Proof.
  intros Hi Hj Hb Ha.
  destruct (ScrubWord_cases s) as [[Hno _]|(i' & j' & _ & Hi' & Hj' & Hb' & Ha' & Hr)].
  - rewrite Hno in Hi. discriminate.
  - assert (i' = i).
    { destruct (Nat.lt_trichotomy i i') as [H|[H|H]]; [|done|].
      - rewrite Hb' in Hi by done. discriminate.
      - rewrite Hb in Hi' by done. discriminate. }
    assert (j' = j).
    { destruct (Nat.lt_trichotomy j j') as [H'|[H'|H']]; [|done|].
      - rewrite Ha in Hj' by done. discriminate.
      - rewrite Ha' in Hj by done. discriminate. }
    by subst.
Qed.

(** X1: scrubbing is idempotent: a scrubbed word scrubs to itself. *)
Theorem ScrubWord_idempotent (s : string) :
  (do w <- V1.ScrubWord s; V1.ScrubWord w) = V1.ScrubWord s.
Proof.
  destruct (ScrubWord_cases s) as [[_ Hr]|(i & j & Hij & Hi & Hj & _ & _ & Hr)];
    rewrite Hr; cbn [bind]; [reflexivity|].
  assert (Hlen : String.length (substring i (j + 1 - i) s) = (j + 1 - i)%nat)
    by (apply length_substring; lia).
  rewrite (ScrubWord_between _ 0 (j - i)).
  - replace (j - i + 1 - 0)%nat with (String.length (substring i (j + 1 - i) s))
      by lia.
    by rewrite substring_full.
  - rewrite alphaAt_substring. destruct (Nat.ltb_spec 0 (j + 1 - i)); [done|lia].
  - rewrite alphaAt_substring. destruct (Nat.ltb_spec (j - i) (j + 1 - i)); [|lia].
    by replace (j - i + i)%nat with j by lia.
  - intros k Hk. lia.
  - intros k Hk. rewrite alphaAt_substring.
    destruct (Nat.ltb_spec k (j + 1 - i)); [lia|done].
Qed.

(** X2: the scrubbed word is a substring of the token, not longer than it;
    it is empty exactly when the token has no alphabetic byte, and
    otherwise it begins and ends with an alphabetic byte. *)
Theorem ScrubWord_shape (s : string) :
  exists w, V1.ScrubWord s = Ok w /\
    (String.length w <= String.length s)%nat /\
    (exists n, w = substring n (String.length w) s) /\
    (w = ""%string <-> forall k, alphaAt s k = false) /\
    (w <> ""%string ->
     alphaAt w 0 = true /\ alphaAt w (String.length w - 1) = true).
Proof.
  destruct (ScrubWord_cases s) as [[Hno Hr]|(i & j & Hij & Hi & Hj & _ & _ & Hr)].
  - exists ""%string. split; [done|]. split; [simpl; lia|].
    split; [exists 0%nat; by destruct s|]. split; [done|]. done.
  - assert (Hlen : String.length (substring i (j + 1 - i) s) = (j + 1 - i)%nat)
      by (apply length_substring; lia).
    exists (substring i (j + 1 - i) s). split; [done|]. rewrite Hlen.
    split; [lia|]. split; [by exists i|]. split.
    + split.
      * intros E. rewrite E in Hlen. simpl in Hlen. lia.
      * intros Hno. rewrite Hno in Hi. discriminate.
    + intros _. rewrite !alphaAt_substring.
      destruct (Nat.ltb_spec 0 (j + 1 - i)); [|lia].
      destruct (Nat.ltb_spec (j + 1 - i - 1) (j + 1 - i)); [|lia].
      split; [done|]. by replace (j + 1 - i - 1 + i)%nat with j by lia.
Qed.

Lemma alphaAt_append a b k :
  alphaAt (String.append a b) k
  = if (k <? String.length a)%nat then alphaAt a k
    else alphaAt b (k - String.length a).
Proof.
  revert k. induction a as [|c a IH]; intros k; simpl.
  - by rewrite Nat.sub_0_r.
  - destruct k as [|k]; [reflexivity|].
    unfold alphaAt in *. simpl. apply IH.
Qed.

Lemma noAlpha_alphaAt s : noAlpha s = true -> forall k, alphaAt s k = false.
Proof.
  unfold noAlpha, alphaAt. induction s as [|c s IH]; intros H k; simpl in *.
  - by destruct k.
  - apply andb_true_iff in H as [Hc Hs]. destruct k as [|k]; [|by apply IH].
    by apply negb_true_iff.
Qed.

Lemma substring_append_r a b n m :
  substring (String.length a + n) m (String.append a b) = substring n m b.
Proof. induction a as [|c a IH]; simpl; [reflexivity|exact IH]. Qed.

Lemma substring_append_l a b n m :
  (n + m <= String.length a)%nat ->
  substring n m (String.append a b) = substring n m a.
Proof.
  revert n m. induction a as [|c a IH]; intros n m H; simpl in *.
  - assert (n = 0%nat) as -> by lia. assert (m = 0%nat) as -> by lia. by destruct b.
  - destruct n as [|n]; destruct m as [|m]; try reflexivity.
    + f_equal. apply IH. lia.
    + apply IH. lia.
    + apply IH. lia.
Qed.

(** X3: bytes that are not alphabetic, put before and after a token, do not
    change the word it scrubs to. *)
Theorem ScrubWord_strips_padding (pre s post : string) :
  noAlpha pre = true -> noAlpha post = true ->
  V1.ScrubWord (String.append pre (String.append s post)) = V1.ScrubWord s.
Proof.
  intros Hpre Hpost.
  pose proof (noAlpha_alphaAt _ Hpre) as Hp. pose proof (noAlpha_alphaAt _ Hpost) as Hq.
  assert (Hat : forall k,
            alphaAt (String.append pre (String.append s post)) k
            = if (k <? String.length pre)%nat then false
              else alphaAt s (k - String.length pre)).
  { intros k. rewrite !alphaAt_append, Hp, Hq.
    destruct (k <? String.length pre)%nat; [done|].
    destruct (Nat.ltb_spec (k - String.length pre) (String.length s)); [done|].
    destruct (alphaAt s (k - String.length pre)) eqn:E; [|done].
    apply alphaAt_lt in E. lia. }
  destruct (ScrubWord_cases s) as [[Hno Hr]|(i & j & Hij & Hi & Hj & Hb & Ha & Hr)];
    rewrite Hr.
  - apply ScrubWord_no_alpha. intros k. rewrite Hat.
    by destruct (k <? String.length pre)%nat.
  - rewrite (ScrubWord_between _ (String.length pre + i) (String.length pre + j)).
    + replace (String.length pre + j + 1 - (String.length pre + i))%nat
        with (j + 1 - i)%nat by lia.
      rewrite substring_append_r, substring_append_l by lia. reflexivity.
    + rewrite Hat. destruct (Nat.ltb_spec (String.length pre + i) (String.length pre)); [lia|].
      by replace (String.length pre + i - String.length pre)%nat with i by lia.
    + rewrite Hat. destruct (Nat.ltb_spec (String.length pre + j) (String.length pre)); [lia|].
      by replace (String.length pre + j - String.length pre)%nat with j by lia.
    + intros k Hk. rewrite Hat. destruct (Nat.ltb_spec k (String.length pre)); [done|].
      apply Hb. lia.
    + intros k Hk. rewrite Hat. destruct (Nat.ltb_spec k (String.length pre)); [lia|].
      apply Ha. lia.
Qed.

Lemma ScrubWord_strips_padding_witness :
  noAlpha "(1" = true /\ noAlpha "!)" = true /\
  V1.ScrubWord (String.append "(1" (String.append "don't" "!)"))
  = V1.ScrubWord "don't".
Proof.
  split; [reflexivity|]. split; [reflexivity|].
  apply (ScrubWord_strips_padding "(1" "don't" "!)"); reflexivity.
Defined.

(** ** The word counter, continued *)

Lemma scanLoop_counts (rt : GoRuntime) cs tokens m total k w :
  Z.of_nat (k + length tokens) <= maxInt ->
  scanInv m total k ->
  exists m' total',
    V1.scanLoop cs tokens m total = Ok (m', total') /\
    default 0 (m' !! w) = default 0 (m !! w) + Z.of_nat (countWord rt cs w tokens).
Proof.
  revert m total k. induction tokens as [|text rest IH]; intros m total k Hk Hinv;
    cbn [V1.scanLoop length].
  - exists m, total. split; [done|]. unfold countWord. simpl. lia.
  - destruct (scanWord_total rt cs text) as [w' Hw]. rewrite Hw. cbn [bind].
    cbn [length] in Hk.
    destruct (scanInv_step m total k w') as [Hinv' Hwrap]; [lia|done|].
    destruct (IH _ _ (S k) ltac:(lia) Hinv') as (m' & total' & Hr & He).
    exists m', total'. split; [done|].
    rewrite He, Hwrap. unfold countWord.
    assert (Hca : countsAs rt cs w text = String.eqb w' w)
      by (unfold countsAs; by rewrite Hw).
    rewrite lookup_insert. destruct (String.eqb_spec w' w) as [->|Hne].
    + rewrite decide_True by done. rewrite filter_cons_True by done. simpl. lia.
    + rewrite decide_False by done. rewrite filter_cons_False by (by rewrite Hca).
      lia.
Qed.

Lemma countWord_perm (rt : GoRuntime) cs w l1 l2 :
  l1 ≡ₚ l2 -> countWord rt cs w l1 = countWord rt cs w l2.
Proof. intros H. unfold countWord. by rewrite H. Qed.

Lemma countWord_app (rt : GoRuntime) cs w l1 l2 :
  countWord rt cs w (l1 ++ l2) = (countWord rt cs w l1 + countWord rt cs w l2)%nat.
Proof. unfold countWord. by rewrite filter_app, length_app. Qed.

(** The entries of the map [WordCount] returns. *)
Lemma WordCount_lookup (rt : GoRuntime) tokens cs m total w :
  Z.of_nat (length tokens) <= maxInt ->
  V1.WordCount tokens cs = Ok (m, total) ->
  m !! w = if String.eqb w "" then None else entryOf (countWord rt cs w tokens).
Proof.
  intros Hlen Hwc.
  destruct (WordCount_spec rt tokens cs Hlen) as (m0 & total0 & Hr & _ & He & Hv & _).
  rewrite Hwc in Hr. injection Hr as <- <-.
  destruct (String.eqb_spec w "") as [->|Hne]; [done|].
  unfold V1.WordCount in Hwc. bind_inv Hwc as r Hloop. destruct r as [m1 total1].
  injection Hwc as <- <-.
  destruct (scanLoop_counts rt cs tokens ∅ 0 0 w ltac:(simpl; lia) scanInv_init)
    as (m' & total' & Hr & Hc).
  rewrite Hloop in Hr. injection Hr as <- <-.
  rewrite lookup_empty in Hc. simpl in Hc.
  rewrite lookup_delete_ne by done.
  unfold entryOf. destruct (m1 !! w) as [v|] eqn:E; simpl in Hc.
  - assert (1 <= v <= Z.of_nat (length tokens))
      by (apply (Hv w); by rewrite lookup_delete_ne).
    destruct (Nat.eqb_spec (countWord rt cs w tokens) 0); [lia|]. f_equal. lia.
  - destruct (Nat.eqb_spec (countWord rt cs w tokens) 0); [done|lia].
Qed.

(** X4: the frequency map holds, for every non-empty word, the number of
    tokens counted under it, and no entry for a word no token is counted
    under, nor for the empty word; the total is the number of tokens. *)
Theorem WordCount_counts (rt : GoRuntime) (tokens : list string) (cs : bool) :
  Z.of_nat (length tokens) <= maxInt ->
  exists m total,
    V1.WordCount tokens cs = Ok (m, total) /\
    total = Z.of_nat (length tokens) /\
    forall w, m !! w = if String.eqb w "" then None
                       else entryOf (countWord rt cs w tokens).
Proof.
  intros Hlen.
  destruct (WordCount_spec rt tokens cs Hlen) as (m & total & Hr & Ht & _).
  exists m, total. split; [done|]. split; [done|].
  intros w. by apply (WordCount_lookup rt tokens cs m total).
Qed.

Lemma WordCount_counts_witness :
  Z.of_nat (length sampleTokens) <= maxInt /\
  exists m total,
    @V1.WordCount refRuntime sampleTokens false = Ok (m, total) /\
    total = Z.of_nat (length sampleTokens) /\
    forall w, m !! w = if String.eqb w "" then None
                       else entryOf (countWord refRuntime false w sampleTokens).
Proof.
  assert (H : Z.of_nat (length sampleTokens) <= maxInt) by (vm_compute; discriminate).
  split; [exact H|]. exact (WordCount_counts refRuntime sampleTokens false H).
Defined.

(** X5: the word count does not depend on the order of the tokens. *)
Theorem WordCount_permutation (rt : GoRuntime) (tokens tokens' : list string) (cs : bool) :
  Z.of_nat (length tokens) <= maxInt ->
  tokens ≡ₚ tokens' ->
  V1.WordCount tokens cs = V1.WordCount tokens' cs.
Proof.
  intros Hlen Hperm.
  assert (Hlen' : Z.of_nat (length tokens') <= maxInt)
    by (by rewrite <- (Permutation_length Hperm)).
  destruct (WordCount_spec rt tokens cs Hlen) as (m & total & Hr & -> & _).
  destruct (WordCount_spec rt tokens' cs Hlen') as (m' & total' & Hr' & -> & _).
  rewrite Hr, Hr', (Permutation_length Hperm). do 2 f_equal.
  apply map_eq. intros w.
  rewrite (WordCount_lookup rt tokens cs m _ w Hlen Hr).
  rewrite (WordCount_lookup rt tokens' cs m' _ w Hlen' Hr').
  by rewrite (countWord_perm rt cs w _ _ Hperm).
Qed.

Lemma WordCount_permutation_witness :
  Z.of_nat (length ["b"; "a"; "b"]%string) <= maxInt /\
  ["b"; "a"; "b"]%string ≡ₚ ["a"; "b"; "b"]%string /\
  @V1.WordCount refRuntime ["b"; "a"; "b"]%string true
  = @V1.WordCount refRuntime ["a"; "b"; "b"]%string true.
Proof.
  assert (H : Z.of_nat (length ["b"; "a"; "b"]%string) <= maxInt)
    by (vm_compute; discriminate).
  assert (Hp : ["b"; "a"; "b"]%string ≡ₚ ["a"; "b"; "b"]%string) by apply perm_swap.
  split; [exact H|]. split; [exact Hp|].
  exact (WordCount_permutation refRuntime _ _ true H Hp).
Defined.

(** X6: counting two token sequences one after the other merges the two
    word counts: the totals add up and so do the counts of each word. *)
Theorem WordCount_app (rt : GoRuntime) (tokens1 tokens2 : list string) (cs : bool) :
  Z.of_nat (length (tokens1 ++ tokens2)) <= maxInt ->
  exists m1 total1 m2 total2,
    V1.WordCount tokens1 cs = Ok (m1, total1) /\
    V1.WordCount tokens2 cs = Ok (m2, total2) /\
    V1.WordCount (tokens1 ++ tokens2) cs
    = Ok (union_with (fun a b => Some (a + b)) m1 m2, total1 + total2).
Proof.
  intros Hlen. rewrite length_app in Hlen.
  assert (Hl1 : Z.of_nat (length tokens1) <= maxInt) by lia.
  assert (Hl2 : Z.of_nat (length tokens2) <= maxInt) by lia.
  assert (Hl : Z.of_nat (length (tokens1 ++ tokens2)) <= maxInt)
    by (rewrite length_app; lia).
  destruct (WordCount_spec rt tokens1 cs Hl1) as (m1 & total1 & H1 & -> & _).
  destruct (WordCount_spec rt tokens2 cs Hl2) as (m2 & total2 & H2 & -> & _).
  destruct (WordCount_spec rt (tokens1 ++ tokens2) cs Hl) as (m & total & H & -> & _).
  exists m1, (Z.of_nat (length tokens1)), m2, (Z.of_nat (length tokens2)).
  split; [done|]. split; [done|]. rewrite H. f_equal. f_equal.
  - apply map_eq. intros w. rewrite lookup_union_with.
    rewrite (WordCount_lookup rt _ cs m _ w Hl H).
    rewrite (WordCount_lookup rt _ cs m1 _ w Hl1 H1).
    rewrite (WordCount_lookup rt _ cs m2 _ w Hl2 H2).
    destruct (String.eqb w ""); [done|]. rewrite countWord_app. unfold entryOf.
    destruct (Nat.eqb_spec (countWord rt cs w tokens1) 0) as [->|];
      destruct (Nat.eqb_spec (countWord rt cs w tokens2) 0) as [->|]; simpl.
    + done.
    + destruct (Nat.eqb_spec (countWord rt cs w tokens2) 0); [lia|done].
    + rewrite Nat.add_0_r. destruct (Nat.eqb_spec (countWord rt cs w tokens1) 0); [lia|done].
    + destruct (Nat.eqb_spec (countWord rt cs w tokens1 + countWord rt cs w tokens2) 0);
        [lia|]. f_equal. lia.
  - rewrite length_app. lia.
Qed.

Lemma WordCount_app_witness :
  Z.of_nat (length (["a"; "b"]%string ++ ["b"; "..."]%string)) <= maxInt /\
  exists m1 total1 m2 total2,
    @V1.WordCount refRuntime ["a"; "b"]%string true = Ok (m1, total1) /\
    @V1.WordCount refRuntime ["b"; "..."]%string true = Ok (m2, total2) /\
    @V1.WordCount refRuntime (["a"; "b"]%string ++ ["b"; "..."]%string) true
    = Ok (union_with (fun a b => Some (a + b)) m1 m2, total1 + total2).
Proof.
  assert (H : Z.of_nat (length (["a"; "b"]%string ++ ["b"; "..."]%string)) <= maxInt)
    by (vm_compute; discriminate).
  split; [exact H|]. exact (WordCount_app refRuntime _ _ true H).
Defined.

Lemma notUpper_lowerByte c : notUpper (lowerByte c) = true.
Proof. destruct c as [[] [] [] [] [] [] [] []]; reflexivity. Qed.

Lemma notUpper_mapString s : allBytes notUpper (mapString lowerByte s) = true.
Proof.
  induction s as [|c s IH]; simpl; [reflexivity|].
  by rewrite notUpper_lowerByte, IH.
Qed.

Lemma ScrubWord_allBytes p s w :
  allBytes p s = true -> V1.ScrubWord s = Ok w -> allBytes p w = true.
Proof.
  intros Hs Hw.
  destruct (ScrubWord_cases s) as [[_ H]|(i & j & _ & _ & _ & _ & _ & H)];
    rewrite H in Hw; injection Hw as <-; [reflexivity|].
  by apply allBytes_substring.
Qed.

(** X7: without case sensitivity, on tokens of ASCII bytes, no key of the
    frequency map has a letter in A-Z, and two tokens that differ only in
    the case of their letters are counted under the same word. *)
Theorem WordCount_folds_case (rt : GoRuntime) (tokens : list string) :
  Forall (fun t => allBytes isASCIIByte t = true) tokens ->
  exists m total,
    V1.WordCount tokens false = Ok (m, total) /\
    (forall w, is_Some (m !! w) -> allBytes notUpper w = true) /\
    (forall t1 t2, t1 ∈ tokens -> t2 ∈ tokens ->
       mapString lowerByte t1 = mapString lowerByte t2 ->
       V1.scanWord false t1 = V1.scanWord false t2).
Proof.
  intros Hascii. rewrite Forall_forall in Hascii.
  destruct (WordCount_total rt tokens false) as (m & total & Hwc).
  exists m, total. split; [done|]. split.
  - intros w Hw.
    apply (WordCount_keys rt _ _ _ _ Hwc w) in Hw as (_ & t & Ht & Hw).
    unfold V1.scanWord in Hw. rewrite (stringsToLower_ascii t (Hascii t Ht)) in Hw.
    eapply ScrubWord_allBytes; [|exact Hw]. apply notUpper_mapString.
  - intros t1 t2 Ht1 Ht2 E. unfold V1.scanWord.
    rewrite (stringsToLower_ascii t1 (Hascii t1 Ht1)).
    rewrite (stringsToLower_ascii t2 (Hascii t2 Ht2)). by rewrite E.
Qed.

Lemma WordCount_folds_case_witness :
  Forall (fun t => allBytes isASCIIByte t = true) ["The"; "the"; "THE."]%string /\
  exists m total,
    @V1.WordCount refRuntime ["The"; "the"; "THE."]%string false = Ok (m, total) /\
    (forall w, is_Some (m !! w) -> allBytes notUpper w = true) /\
    (forall t1 t2, t1 ∈ ["The"; "the"; "THE."]%string ->
       t2 ∈ ["The"; "the"; "THE."]%string ->
       mapString lowerByte t1 = mapString lowerByte t2 ->
       @V1.scanWord refRuntime false t1 = @V1.scanWord refRuntime false t2).
Proof.
  assert (H : Forall (fun t => allBytes isASCIIByte t = true)
                ["The"; "the"; "THE."]%string)
    by (repeat constructor).
  split; [exact H|]. exact (WordCount_folds_case refRuntime _ H).
Defined.

(** ** The concordance, continued *)

(** The ranking before its truncation: the entries of the map, in order of
    count. *)
Lemma NewConcordance_V1_ranking (rt : GoRuntime) tokens cs n c :
  Z.of_nat (length tokens) <= maxInt ->
  V1.NewConcordance tokens cs n = Ok c ->
  exists sorted,
    sorted ≡ₚ toWordTuple <$> map_to_list (Counts c) /\
    IsSorted (sortReverse V1.Less) sorted /\
    elems (MostUsed c)
    = if (0 <? n) && (n <? Z.of_nat (size (Counts c)))
      then take (Z.to_nat n) sorted else sorted.
Proof.
  intros Hlen H.
  destruct (NewConcordance_V1_inv rt _ _ _ _ H) as (m & total & cp & Hwc & Hp & Ht).
  pose proof (WordCount_size rt _ _ _ _ Hlen Hwc) as Hsize.
  destruct (process_Ok rt (counted m total) cp eq_refl ltac:(simpl; lia) Hp)
    as (Hc & _ & _ & Hperm & Hsorted & Hslen & Hcap & _).
  simpl in Hc, Hperm, Hslen, Hcap.
  assert (Hwf : slice_wf (MostUsed cp)) by (unfold slice_wf; lia).
  exists (elems (MostUsed cp)).
  destruct (TruncateTopWords_V1_cases n cp Hwf) as [[Hn Hr]|[Hn Hr]];
    rewrite Hr in Ht; injection Ht as <-; cbn [Counts MostUsed]; rewrite Hc;
    (split; [done|]); (split; [done|]); rewrite Hslen in Hn.
  - destruct (Z.ltb_spec 0 n); simpl; [|done].
    by destruct (Z.ltb_spec n (Z.of_nat (size m))); [lia|].
  - rewrite take_elems by lia.
    destruct (Z.ltb_spec 0 n); [|lia].
    by destruct (Z.ltb_spec n (Z.of_nat (size m))); [|lia].
Qed.

(** X8: the concordance reports as [Total] the number of tokens and as
    [Unique] a number between 0 and [Total] less the tokens counted under
    the empty word; [Unique] is 0 exactly when every token is. *)
Theorem NewConcordance_totals (rt : GoRuntime) (tokens : list string) (cs : bool)
    (n : Z) (c : Concordance) :
  Z.of_nat (length tokens) <= maxInt ->
  V1.NewConcordance tokens cs n = Ok c ->
  Total c = Z.of_nat (length tokens) /\
  0 <= Unique c <= Total c - Z.of_nat (countEmpty rt cs tokens) /\
  (Unique c = 0 <-> forall t, t ∈ tokens -> scrubsEmpty rt cs t = true).
Proof.
  intros Hlen H.
  destruct (NewConcordance_V1_Ok rt _ _ _ _ Hlen H) as (Hwc & Hu & _).
  destruct (WordCount_spec rt tokens cs Hlen) as (m & total & Hr & Ht & _ & Hv & Hs).
  rewrite Hwc in Hr. injection Hr as <- <-.
  assert (Hsz : Z.of_nat (size (Counts c)) <= sumValues (Counts c)).
  { apply size_le_sumValues. intros w v E. apply Hv in E. lia. }
  split; [done|]. split; [lia|]. rewrite Hu. split.
  - intros E t Hin. assert (Hempty : Counts c = ∅) by (apply map_size_empty_inv; lia).
    destruct (scanWord_total rt cs t) as [w Hw].
    unfold scrubsEmpty. rewrite Hw. destruct (String.eqb_spec w ""); [done|].
    assert (Hs' : is_Some (Counts c !! w))
      by (apply (WordCount_keys rt _ _ _ _ Hwc w); split; [done|by exists t]).
    rewrite Hempty, lookup_empty in Hs'. by destruct Hs'.
  - intros Hall. assert (Hempty : Counts c = ∅).
    { apply map_empty. intros w. apply eq_None_not_Some. intros Hs'.
      apply (WordCount_keys rt _ _ _ _ Hwc w) in Hs' as (Hne & t & Hin & Hw).
      specialize (Hall t Hin). unfold scrubsEmpty in Hall. rewrite Hw in Hall.
      by apply String.eqb_eq in Hall. }
    by rewrite Hempty, map_size_empty.
Qed.

Lemma NewConcordance_totals_witness :
  match @V1.NewConcordance refRuntime ["The"; "the"; "..."]%string true 0 with
  | Ok c =>
      Z.of_nat (length ["The"; "the"; "..."]%string) <= maxInt /\
      Total c = Z.of_nat (length ["The"; "the"; "..."]%string) /\
      0 <= Unique c
        <= Total c - Z.of_nat (countEmpty refRuntime true ["The"; "the"; "..."]%string) /\
      (Unique c = 0 <->
       forall t, t ∈ ["The"; "the"; "..."]%string -> scrubsEmpty refRuntime true t = true)
  | _ => False
  end.
Proof.
  assert (Hlen : Z.of_nat (length ["The"; "the"; "..."]%string) <= maxInt)
    by (vm_compute; discriminate).
  destruct (@V1.NewConcordance refRuntime ["The"; "the"; "..."]%string true 0)
    as [c| |] eqn:E.
  - split; [exact Hlen|].
    exact (NewConcordance_totals refRuntime _ true 0 c Hlen E).
  - vm_compute in E. discriminate E.
  - vm_compute in E. discriminate E.
Defined.

Lemma elem_of_ranking (m : gmap string Z) t :
  t ∈ toWordTuple <$> map_to_list m <-> m !! Word t = Some (Count t).
Proof.
  rewrite list_elem_of_fmap. split.
  - intros ([w v] & -> & Hin). by apply elem_of_map_to_list in Hin.
  - intros H. exists (Word t, Count t). split; [by destruct t|].
    by apply elem_of_map_to_list.
Qed.

Lemma NoDup_ranking_words (m : gmap string Z) :
  NoDup (Word <$> (toWordTuple <$> map_to_list m)).
Proof.
  rewrite <- list_fmap_compose.
  replace (Word ∘ toWordTuple <$> map_to_list m) with ((map_to_list m).*1).
  - apply NoDup_fst_map_to_list.
  - induction (map_to_list m) as [|[w v] l IH]; [done|]. csimpl. by f_equal.
Qed.

(** X9: every element of [MostUsed] is a word of the frequency map with
    its count, no word occurs twice, and the length is the number of
    words, or [topWords] when that is positive and smaller; when nothing
    is cut, every word of the map is in [MostUsed]. *)
Theorem MostUsed_entries (rt : GoRuntime) (tokens : list string) (cs : bool)
    (n : Z) (c : Concordance) :
  Z.of_nat (length tokens) <= maxInt ->
  V1.NewConcordance tokens cs n = Ok c ->
  (forall t, t ∈ elems (MostUsed c) -> Counts c !! Word t = Some (Count t)) /\
  NoDup (Word <$> elems (MostUsed c)) /\
  length (elems (MostUsed c))
  = (if 0 <? n then Nat.min (Z.to_nat n) (size (Counts c)) else size (Counts c)) /\
  (n <= 0 \/ Z.of_nat (size (Counts c)) <= n ->
   forall w v, Counts c !! w = Some v -> mkWordTuple w v ∈ elems (MostUsed c)).
Proof.
  intros Hlen H.
  destruct (NewConcordance_V1_ranking rt _ _ _ _ Hlen H) as (sorted & Hperm & _ & He).
  assert (Hsz : length sorted = size (Counts c)).
  { rewrite (Permutation_length Hperm), length_fmap. apply length_map_to_list. }
  assert (Hsub : elems (MostUsed c) `sublist_of` sorted).
  { rewrite He. destruct (_ && _); [apply sublist_take|done]. }
  split; [|split; [|split]].
  - intros t Ht. apply elem_of_ranking. rewrite <- Hperm.
    by eapply elem_of_sublist.
  - eapply sublist_NoDup; [|by apply fmap_sublist].
    rewrite Hperm. apply NoDup_ranking_words.
  - rewrite He. destruct (Z.ltb_spec 0 n); simpl.
    + destruct (Z.ltb_spec n (Z.of_nat (size (Counts c)))).
      * rewrite length_take. lia.
      * lia.
    + lia.
  - intros Hn w v Hw. rewrite He.
    assert (Hb : (0 <? n) && (n <? Z.of_nat (size (Counts c))) = false).
    { destruct (Z.ltb_spec 0 n); simpl; [|done].
      destruct (Z.ltb_spec n (Z.of_nat (size (Counts c)))); [lia|done]. }
    rewrite Hb, Hperm. by apply elem_of_ranking.
Qed.

Lemma MostUsed_entries_witness :
  match @V1.NewConcordance refRuntime sampleTokens false 2 with
  | Ok c =>
      Z.of_nat (length sampleTokens) <= maxInt /\
      (forall t, t ∈ elems (MostUsed c) -> Counts c !! Word t = Some (Count t)) /\
      NoDup (Word <$> elems (MostUsed c)) /\
      length (elems (MostUsed c))
      = (if 0 <? 2 then Nat.min (Z.to_nat 2) (size (Counts c)) else size (Counts c)) /\
      (2 <= 0 \/ Z.of_nat (size (Counts c)) <= 2 ->
       forall w v, Counts c !! w = Some v -> mkWordTuple w v ∈ elems (MostUsed c))
  | _ => False
  end.
Proof.
  assert (Hlen : Z.of_nat (length sampleTokens) <= maxInt) by (vm_compute; discriminate).
  destruct (@V1.NewConcordance refRuntime sampleTokens false 2) as [c| |] eqn:E.
  - split; [exact Hlen|].
    exact (MostUsed_entries refRuntime sampleTokens false 2 c Hlen E).
  - vm_compute in E. discriminate E.
  - vm_compute in E. discriminate E.
Defined.

Lemma StronglySorted_across {A : Type} (R : A -> A -> Prop) l1 l2 x1 x2 :
  StronglySorted R (l1 ++ l2) -> x1 ∈ l1 -> x2 ∈ l2 -> R x1 x2.
Proof.
  induction l1 as [|y l1 IH]; simpl; intros Hs H1 H2; [inversion H1|].
  inversion Hs as [|? ? Hs' Hall]; subst.
  apply elem_of_cons in H1 as [->|H1]; [|by apply IH].
  rewrite Forall_forall in Hall. apply Hall. apply elem_of_app. by right.
Qed.

(** X10: [MostUsed] holds the most frequent words: a word of the map that
    is left out of it has a count no greater than any count in it. *)
Theorem MostUsed_top (rt : GoRuntime) (tokens : list string) (cs : bool)
    (n : Z) (c : Concordance) :
  Z.of_nat (length tokens) <= maxInt ->
  V1.NewConcordance tokens cs n = Ok c ->
  forall a w v,
    a ∈ elems (MostUsed c) ->
    Counts c !! w = Some v ->
    mkWordTuple w v ∉ elems (MostUsed c) ->
    v <= Count a.
Proof.
  intros Hlen H a w v Ha Hw Hout.
  destruct (NewConcordance_V1_ranking rt _ _ _ _ Hlen H)
    as (sorted & Hperm & Hsorted & He).
  assert (Hin : mkWordTuple w v ∈ sorted) by (rewrite Hperm; by apply elem_of_ranking).
  rewrite He in Ha, Hout. destruct (_ && _); [|done].
  rewrite <- (take_drop (Z.to_nat n) sorted) in Hin, Hsorted.
  apply elem_of_app in Hin as [Hin|Hin]; [done|].
  apply Sorted_StronglySorted in Hsorted.
  - pose proof (StronglySorted_across _ _ _ _ _ Hsorted Ha Hin) as Hr.
    unfold sortReverse, V1.Less in Hr. simpl in Hr. apply Z.ltb_ge in Hr. lia.
  - intros x y z. unfold sortReverse, V1.Less. rewrite !Z.ltb_ge. lia.
Qed.

Lemma MostUsed_top_witness :
  match @V1.NewConcordance refRuntime sampleTokens false 2 with
  | Ok c =>
      Z.of_nat (length sampleTokens) <= maxInt /\
      forall a w v,
        a ∈ elems (MostUsed c) ->
        Counts c !! w = Some v ->
        mkWordTuple w v ∉ elems (MostUsed c) ->
        v <= Count a
  | _ => False
  end.
Proof.
  assert (Hlen : Z.of_nat (length sampleTokens) <= maxInt) by (vm_compute; discriminate).
  destruct (@V1.NewConcordance refRuntime sampleTokens false 2) as [c| |] eqn:E.
  - split; [exact Hlen|].
    exact (MostUsed_top refRuntime sampleTokens false 2 c Hlen E).
  - vm_compute in E. discriminate E.
  - vm_compute in E. discriminate E.
Defined.

Lemma length_zero_empty s : String.length s = 0%nat -> s = ""%string.
Proof. by destruct s. Qed.

(** X11: the histogram of the concordance has the value 0 at index 0, has
    a slot for the length of every word, and is exactly one slot longer
    than the longest word; for a corpus without words it is the single
    slot 0. *)
Theorem histogram_shape (rt : GoRuntime) (tokens : list string) (cs : bool)
    (n : Z) (c : Concordance) :
  Z.of_nat (length tokens) <= maxInt ->
  V1.NewConcordance tokens cs n = Ok c ->
  LengthHistogram c !! 0%nat = Some 0 /\
  (forall w, is_Some (Counts c !! w) ->
     (String.length w < length (LengthHistogram c))%nat) /\
  (Counts c = ∅ -> LengthHistogram c = [0]) /\
  (Counts c <> ∅ ->
   exists w, is_Some (Counts c !! w) /\
     length (LengthHistogram c) = S (String.length w)).
Proof.
  intros Hlen H.
  destruct (NewConcordance_V1_Ok rt _ _ _ _ Hlen H) as (Hwc & _ & _ & Hslot & Hlast & _).
  assert (Hkey : forall k, (1 <= countLen k (map_to_list (Counts c)))%nat ->
            exists w, is_Some (Counts c !! w) /\ String.length w = k).
  { intros k Hk. destruct (countLen_pos_inv _ _ Hk) as ([w v] & Hin & Hw).
    apply elem_of_map_to_list in Hin. exists w. split; [by exists v|done]. }
  assert (Hfit : forall w, is_Some (Counts c !! w) ->
            (String.length w < length (LengthHistogram c))%nat).
  { intros w [v Hv].
    pose proof (countLen_pos (String.length w) (map_to_list (Counts c)) (w, v)
                  ltac:(by apply elem_of_map_to_list) eq_refl) as Hc.
    destruct (slot_pos_lookup (LengthHistogram c) (String.length w)
                ltac:(rewrite Hslot; lia)) as (x & Hx & _).
    by apply lookup_lt_Some in Hx. }
  assert (Hlong : forall v, last (LengthHistogram c) = Some v -> 0 < v ->
            exists w, is_Some (Counts c !! w) /\
              length (LengthHistogram c) = S (String.length w)).
  { intros v Hl Hv. rewrite last_lookup in Hl.
    destruct (Hkey (pred (length (LengthHistogram c)))) as (w & Hw & Hwl).
    { pose proof (Hslot (pred (length (LengthHistogram c)))) as Hs.
      unfold slot in Hs. rewrite Hl in Hs. simpl in Hs. lia. }
    exists w. split; [done|]. apply lookup_lt_Some in Hl. lia. }
  split; [|split; [done|split]].
  - assert (H0 : slot (LengthHistogram c) 0 = 0).
    { rewrite Hslot.
      destruct (countLen 0 (map_to_list (Counts c))) as [|k] eqn:E; [done|].
      destruct (Hkey 0%nat ltac:(lia)) as (w & Hw & Hwl).
      apply length_zero_empty in Hwl as ->.
      apply (WordCount_keys rt _ _ _ _ Hwc) in Hw as [Hne _]. done. }
    unfold slot in H0. destruct (LengthHistogram c) as [|x l]; simpl in *.
    + destruct Hlast as [(v & Hv & _)|Hv]; discriminate.
    + by rewrite H0.
  - intros Hempty. destruct Hlast as [(v & Hl & Hv)|E]; [|done].
    destruct (Hlong v Hl Hv) as (w & Hw & _).
    rewrite Hempty, lookup_empty in Hw. by destruct Hw.
  - intros Hne. destruct Hlast as [(v & Hl & Hv)|E]; [by eapply Hlong|].
    destruct (map_choose _ Hne) as (w & v & Hw).
    pose proof (Hfit w ltac:(by exists v)) as Hlt. rewrite E in Hlt. simpl in Hlt.
    assert (String.length w = 0%nat) as Hz by lia.
    apply length_zero_empty in Hz as ->.
    assert (Hs : is_Some (Counts c !! ""%string)) by (by exists v).
    apply (WordCount_keys rt _ _ _ _ Hwc) in Hs as [Hn _]. done.
Qed.

Lemma histogram_shape_witness :
  match @V1.NewConcordance refRuntime sampleTokens false 2 with
  | Ok c =>
      Z.of_nat (length sampleTokens) <= maxInt /\
      LengthHistogram c !! 0%nat = Some 0 /\
      (forall w, is_Some (Counts c !! w) ->
         (String.length w < length (LengthHistogram c))%nat) /\
      (Counts c = ∅ -> LengthHistogram c = [0]) /\
      (Counts c <> ∅ ->
       exists w, is_Some (Counts c !! w) /\
         length (LengthHistogram c) = S (String.length w))
  | _ => False
  end.
Proof.
  assert (Hlen : Z.of_nat (length sampleTokens) <= maxInt) by (vm_compute; discriminate).
  destruct (@V1.NewConcordance refRuntime sampleTokens false 2) as [c| |] eqn:E.
  - split; [exact Hlen|].
    exact (histogram_shape refRuntime sampleTokens false 2 c Hlen E).
  - vm_compute in E. discriminate E.
  - vm_compute in E. discriminate E.
Defined.

(** ** The histogram, continued *)

Lemma wrap64_le z : 0 <= z -> wrap64 z <= z.
Proof.
  intros Hz. unfold wrap64.
  pose proof (Z.mod_le (z + 2 ^ 63) (2 ^ 64) ltac:(lia) ltac:(lia)). lia.
Qed.

(** The doubling loop ends when the word length is one a string can have. *)
Lemma growLen_terminates fuel newlen wordlen :
  0 < newlen -> wordlen <= 2 ^ 62 -> wordlen <= newlen * 2 ^ Z.of_nat fuel ->
  exists r, V1.growLen fuel newlen wordlen = Ok r.
Proof.
  revert newlen. induction fuel as [|fuel IH]; intros newlen Hpos Hwl Hreach;
    cbn [V1.growLen]; destruct (Z.ltb_spec newlen wordlen) as [Hlt|Hge]; eauto.
  - simpl in Hreach. lia.
  - rewrite wrap64_small by (unfold maxInt; lia).
    apply IH; [lia|done|].
    rewrite Nat2Z.inj_succ, Z.pow_succ_r in Hreach by lia. lia.
Qed.

(** A round of the histogram code that completes leaves a histogram with a
    slot for the word, at most twice as long as before. *)
Lemma histStep_len hist wl hist' :
  V1.histStep hist wl = Ok hist' ->
  (wl < length hist')%nat /\ (length hist <= length hist' <= 2 * length hist)%nat.
Proof.
  unfold V1.histStep. destruct (Nat.leb_spec (length hist) wl) as [Hgrow|Hfit].
  - intros H. bind_inv H as newlen Hg. clear Hg.
    bind_inv H as newHist Ha0. bind_inv H as newHist' Ha1.
    unfold makeInts in Ha0.
    destruct (Z.ltb_spec (wrap64 (2 * Z.of_nat (length hist))) 0); [discriminate|].
    injection Ha0 as <-.
    pose proof (copyLoop_spec hist []
                  (replicate (Z.to_nat (wrap64 (2 * Z.of_nat (length hist)))) 0)) as Hc.
    simpl in Hc. rewrite Hc in Ha1. clear Hc. rewrite length_replicate in Ha1.
    destruct (Nat.leb_spec (length hist) (Z.to_nat (wrap64 (2 * Z.of_nat (length hist)))));
      [|discriminate].
    injection Ha1 as <-. unfold incr in H.
    destruct (_ !! wl) eqn:E; [|discriminate]. injection H as <-.
    apply lookup_lt_Some in E. rewrite length_insert.
    rewrite length_app, length_drop, length_replicate in E |- *.
    pose proof (wrap64_le (2 * Z.of_nat (length hist)) ltac:(lia)). lia.
  - unfold incr. destruct (hist !! wl) eqn:E; [|discriminate]. intros [= <-].
    rewrite length_insert. lia.
Qed.

(** A word at least twice as long as the histogram makes the round panic. *)
Lemma histStep_panics hist wl :
  (1 <= length hist)%nat -> 2 * Z.of_nat (length hist) <= 2 ^ 62 ->
  Z.of_nat wl <= 2 ^ 62 -> (2 * length hist <= wl)%nat ->
  V1.histStep hist wl = Panic.
Proof.
  intros Hne Hlen Hwl Hlong. unfold V1.histStep.
  destruct (Nat.leb_spec (length hist) wl) as [_|]; [|lia].
  rewrite wrap64_small by (unfold maxInt; lia).
  destruct (growLen_terminates 65 (2 * Z.of_nat (length hist)) (Z.of_nat wl))
    as [r Hr]; [lia|done|change (Z.of_nat 65) with 65; lia|].
  rewrite Hr. cbn [bind]. unfold makeInts.
  destruct (Z.ltb_spec (2 * Z.of_nat (length hist)) 0); [lia|]. cbn [bind].
  pose proof (copyLoop_spec hist [] (replicate (Z.to_nat (2 * Z.of_nat (length hist))) 0))
    as Hc.
  simpl in Hc. rewrite Hc. clear Hc. rewrite length_replicate.
  destruct (Nat.leb_spec (length hist) (Z.to_nat (2 * Z.of_nat (length hist)))); [|lia].
  cbn [bind]. unfold incr.
  rewrite lookup_ge_None_2; [reflexivity|].
  rewrite length_app, length_drop, length_replicate. lia.
Qed.

(** X12: one round of the histogram code, in closed form.  For a word
    shorter than the histogram, its slot is incremented; for a longer word
    shorter than twice the histogram, the histogram is first extended to
    twice its length, the old values staying at their indices and the new
    slots being zero; for a word at least twice as long, the round panics. *)
Theorem histStep_exact (hist : list Z) (wl : nat) :
  (1 <= length hist)%nat -> 2 * Z.of_nat (length hist) <= 2 ^ 62 ->
  Z.of_nat wl <= 2 ^ 62 ->
  V1.histStep hist wl
  = if (wl <? length hist)%nat then
      Ok (<[wl:=wrap64 (slot hist wl + 1)]> hist)
    else if (wl <? 2 * length hist)%nat then
      Ok (<[wl:=wrap64 (0 + 1)]> (hist ++ replicate (length hist) 0))
    else Panic.
Proof.
  intros Hne Hlen Hwl.
  destruct (Nat.ltb_spec wl (length hist)) as [Hfit|Hgrow].
  - unfold V1.histStep. destruct (Nat.leb_spec (length hist) wl); [lia|].
    unfold incr, slot. destruct (lookup_lt_is_Some_2 hist wl Hfit) as [v ->].
    reflexivity.
  - destruct (Nat.ltb_spec wl (2 * length hist)) as [Hin|Hout];
      [|by apply histStep_panics].
    unfold V1.histStep. destruct (Nat.leb_spec (length hist) wl); [|lia].
    rewrite wrap64_small by (unfold maxInt; lia).
    rewrite growLen_done by lia. cbn [bind]. unfold makeInts.
    destruct (Z.ltb_spec (2 * Z.of_nat (length hist)) 0); [lia|]. cbn [bind].
    pose proof (copyLoop_spec hist [] (replicate (Z.to_nat (2 * Z.of_nat (length hist))) 0))
      as Hc.
    simpl in Hc. rewrite Hc. clear Hc. rewrite length_replicate.
    destruct (Nat.leb_spec (length hist) (Z.to_nat (2 * Z.of_nat (length hist)))); [|lia].
    cbn [bind]. rewrite drop_replicate.
    replace (Z.to_nat (2 * Z.of_nat (length hist)) - length hist)%nat
      with (length hist) by lia.
    unfold incr. rewrite lookup_app_r by lia.
    rewrite lookup_replicate_2 by lia. reflexivity.
Qed.

Lemma histStep_exact_witness :
  (1 <= length (replicate 64 0))%nat /\
  2 * Z.of_nat (length (replicate 64 0)) <= 2 ^ 62 /\
  Z.of_nat 70 <= 2 ^ 62 /\
  V1.histStep (replicate 64 0) 70
  = if (70 <? length (replicate 64 0))%nat then
      Ok (<[70%nat:=wrap64 (slot (replicate 64 0) 70 + 1)]> (replicate 64 0))
    else if (70 <? 2 * length (replicate 64 0))%nat then
      Ok (<[70%nat:=wrap64 (0 + 1)]>
            (replicate 64 0 ++ replicate (length (replicate 64 0)) 0))
    else Panic.
Proof.
  assert (H1 : (1 <= length (replicate 64 0))%nat) by (rewrite length_replicate; lia).
  assert (H2 : 2 * Z.of_nat (length (replicate 64 0)) <= 2 ^ 62)
    by (rewrite length_replicate; lia).
  assert (H3 : Z.of_nat 70 <= 2 ^ 62) by lia.
  split; [exact H1|]. split; [exact H2|]. split; [exact H3|].
  exact (histStep_exact (replicate 64 0) 70 H1 H2 H3).
Defined.

(** [process] from its loop on. *)
Lemma process_unfold (rt : GoRuntime) c :
  V1.process c
  = if Unique c <? 0 then Panic
    else do r <- V1.rangeLoop (mapRange (Counts c))
                   (mkSlice (replicate (Z.to_nat (Unique c)) zeroWordTuple) 0)
                   (replicate 64 0);
         V1.trimHist (mkConcordance (Counts c) (Total c) (Unique c)
                        (sortSlice (sortReverse V1.Less) r.1) r.2).
Proof.
  unfold V1.process. change (makeInts 64) with (Ok (replicate 64 0)). cbn [bind].
  unfold makeCap. by destruct (Unique c <? 0).
Qed.



(** The word lengths a pass can accommodate: the histogram starts with
    [length hist] slots and at most doubles at each entry. *)
Lemma rangeLoop_len_bound (rt : GoRuntime) entries mu hist r :
  V1.rangeLoop entries mu hist = Ok r ->
  Forall (fun kv => (String.length (fst kv) < length hist * 2 ^ length entries)%nat)
    entries.
Proof.
  revert mu hist. induction entries as [|kv rest IH]; intros mu hist;
    cbn [V1.rangeLoop]; [constructor|].
  intros H. bind_inv H as hist' Hstep.
  destruct (histStep_len _ _ _ Hstep) as [Hw Hl].
  cbn [length]. rewrite Nat.pow_succ_r'.
  pose proof (Nat.pow_nonzero 2 (length rest) ltac:(lia)) as Hp.
  constructor; [nia|].
  eapply Forall_impl; [exact (IH _ _ H)|]. simpl. intros kv' Hkv. nia.
Qed.

(** X14: [NewConcordance] returns a concordance for every corpus whose
    words are shorter than 128 bytes, and for no corpus of [k] tokens with
    a word of [64 * 2^k] bytes or more, whatever the order in which the map
    is ranged over. *)
Theorem NewConcordance_word_sizes (rt : GoRuntime) (tokens : list string)
    (cs : bool) (n : Z) :
  Z.of_nat (length tokens) <= maxInt ->
  ((forall t w, t ∈ tokens -> V1.scanWord cs t = Ok w -> (String.length w < 128)%nat) ->
   exists c, V1.NewConcordance tokens cs n = Ok c) /\
  ((exists t w, t ∈ tokens /\ V1.scanWord cs t = Ok w /\
      (64 * 2 ^ length tokens <= String.length w)%nat) ->
   forall c, V1.NewConcordance tokens cs n <> Ok c).
Proof.
  intros Hlen. split; [apply NewConcordance_V1_short|].
  intros (t & w & Ht & Hw & Hbig) c Hc.
  destruct (NewConcordance_V1_inv rt _ _ _ _ Hc) as (m & total & cp & Hwc & Hp & _).
  pose proof (WordCount_size rt _ _ _ _ Hlen Hwc) as Hsize.
  assert (Hkey : is_Some (m !! w)).
  { apply (WordCount_keys rt _ _ _ _ Hwc w). split; [|by exists t].
    intros ->. simpl in Hbig.
    pose proof (Nat.pow_nonzero 2 (length tokens) ltac:(lia)). lia. }
  destruct Hkey as [v Hv].
  rewrite process_unfold in Hp. destruct (Unique (counted m total) <? 0); [discriminate|].
  bind_inv Hp as r Hloop. cbn [Counts counted] in Hloop.
  pose proof (rangeLoop_len_bound rt _ _ _ _ Hloop) as Hall.
  rewrite Forall_forall in Hall. specialize (Hall (w, v)).
  rewrite length_replicate in Hall. cbn [fst] in Hall.
  assert (Hin : (w, v) ∈ mapRange m).
  { rewrite (mapRange_perm m). by apply elem_of_map_to_list. }
  specialize (Hall Hin).
  assert (Hl : length (mapRange m) = size m).
  { rewrite (Permutation_length (mapRange_perm m)). apply length_map_to_list. }
  rewrite Hl in Hall.
  pose proof (Nat.pow_le_mono_r 2 (size m) (length tokens) ltac:(lia) ltac:(lia)).
  nia.
Qed.

Lemma NewConcordance_word_sizes_witness :
  Z.of_nat (length [longWord 128]) <= maxInt /\
  ((forall t w, t ∈ [longWord 128] ->
      @V1.scanWord refRuntime true t = Ok w -> (String.length w < 128)%nat) ->
   exists c, @V1.NewConcordance refRuntime [longWord 128] true 0 = Ok c) /\
  ((exists t w, t ∈ [longWord 128] /\ @V1.scanWord refRuntime true t = Ok w /\
      (64 * 2 ^ length [longWord 128] <= String.length w)%nat) ->
   forall c, @V1.NewConcordance refRuntime [longWord 128] true 0 <> Ok c).
Proof.
  assert (H : Z.of_nat (length [longWord 128]) <= maxInt) by (vm_compute; discriminate).
  split; [exact H|].
  exact (NewConcordance_word_sizes refRuntime [longWord 128] true 0 H).
Defined.

(** ** Trimming and truncating, continued *)

(** X15: [trimHist] panics on a concordance whose histogram is empty (the
    zero value); on any other it keeps a non-empty prefix of the histogram
    and nothing else changes, and trimming again changes nothing. *)
Theorem trimHist_edges :
  (forall c, LengthHistogram c = [] -> V1.trimHist c = Panic) /\
  (forall c, LengthHistogram c <> [] ->
     exists h',
       V1.trimHist c
       = Ok (mkConcordance (Counts c) (Total c) (Unique c) (MostUsed c) h') /\
       (1 <= length h' <= length (LengthHistogram c))%nat /\
       h' = take (length h') (LengthHistogram c) /\
       V1.trimHist (mkConcordance (Counts c) (Total c) (Unique c) (MostUsed c) h')
       = Ok (mkConcordance (Counts c) (Total c) (Unique c) (MostUsed c) h')).
Proof.
  split.
  - intros c E. unfold V1.trimHist. rewrite E. reflexivity.
  - intros c Hne.
    destruct (trimHist_cases c Hne) as (h' & zs & Hr & Happ & Hzs & Hlast).
    assert (Hne' : h' <> []).
    { destruct Hlast as [(v & Hv & _)|[_ ->]].
      - intros ->. discriminate.
      - destruct (LengthHistogram c); [done|discriminate]. }
    exists h'. split; [done|]. split.
    { rewrite Happ, length_app. destruct h'; [done|simpl; lia]. }
    split. { by rewrite Happ, take_app_length. }
    destruct (trimHist_cases
                (mkConcordance (Counts c) (Total c) (Unique c) (MostUsed c) h') Hne')
      as (h'' & zs' & Hr' & Happ' & Hzs' & Hlast').
    cbn [Counts Total Unique MostUsed LengthHistogram] in *.
    rewrite Hr'. do 2 f_equal.
    assert (Hz : zs' = []).
    { destruct zs' as [|z zs'] using rev_ind; [done|].
      destruct Hlast as [(v & Hv & Hpos)|[Hall Ht]].
      - rewrite Happ', app_assoc, last_snoc in Hv. injection Hv as ->.
        apply Forall_app in Hzs' as [_ Hz]. inversion Hz; subst. lia.
      - assert (Hl : (length h' <= 1)%nat) by (rewrite Ht, length_take; lia).
        rewrite Happ', !length_app in Hl. simpl in Hl.
        destruct Hlast' as [(v & Hv & _)|[_ Ht']].
        + destruct h''; [discriminate|]. simpl in Hl. lia.
        + destruct h''; [|simpl in Hl; lia].
          rewrite Happ' in Ht'. simpl in Ht'.
          destruct (zs' ++ [z]) eqn:E; [by destruct zs'|discriminate]. }
    rewrite Hz, app_nil_r in Happ'. done.
Qed.





(** X17: in the second variant, [TruncateTopWords] returns exactly when
    [0 <= n <= cap(MostUsed)] and panics otherwise; it may lengthen the
    ranking, and truncating back to the old length after a truncation
    restores the concordance. *)
Theorem TruncateTopWords_V2_exact (n : Z) (c : Concordance) :
  slice_wf (MostUsed c) ->
  V2.TruncateTopWords n c
  = (if (0 <=? n) && (n <=? Z.of_nat (cap (MostUsed c)))
     then Ok (mkConcordance (Counts c) (Total c) (Unique c)
                (mkSlice (arr (MostUsed c)) (Z.to_nat n)) (LengthHistogram c))
     else Panic) /\
  (0 <= n <= Z.of_nat (slen (MostUsed c)) ->
   (do c1 <- V2.TruncateTopWords n c;
    V2.TruncateTopWords (Z.of_nat (slen (MostUsed c))) c1) = Ok c).
Proof.
  intros Hwf. unfold slice_wf in Hwf.
  assert (Heq : forall k d,
            V2.TruncateTopWords k d
            = (if (0 <=? k) && (k <=? Z.of_nat (cap (MostUsed d)))
               then Ok (mkConcordance (Counts d) (Total d) (Unique d)
                          (mkSlice (arr (MostUsed d)) (Z.to_nat k)) (LengthHistogram d))
               else Panic)).
  { intros k d. unfold V2.TruncateTopWords, reslice.
    destruct (Z.ltb_spec k 0), (Z.leb_spec 0 k); try lia; simpl; [reflexivity|].
    destruct (Z.ltb_spec (Z.of_nat (cap (MostUsed d))) k),
             (Z.leb_spec k (Z.of_nat (cap (MostUsed d)))); try lia; reflexivity. }
  split; [apply Heq|]. intros Hn. rewrite !Heq.
  destruct (Z.leb_spec 0 n); [|lia].
  destruct (Z.leb_spec n (Z.of_nat (cap (MostUsed c)))); [|lia].
  cbn [bind andb]. rewrite Heq. cbn [Counts Total Unique MostUsed LengthHistogram].
  unfold cap at 1. cbn [arr]. fold (cap (MostUsed c)).
  destruct (Z.leb_spec 0 (Z.of_nat (slen (MostUsed c)))); [|lia].
  destruct (Z.leb_spec (Z.of_nat (slen (MostUsed c))) (Z.of_nat (cap (MostUsed c))));
    [|lia].
  cbn [andb]. f_equal. rewrite Nat2Z.id. by destruct c as [? ? ? [? ?] ?].
Qed.

Lemma TruncateTopWords_V2_exact_witness :
  slice_wf (MostUsed oneWord) /\
  V2.TruncateTopWords 0 oneWord
  = (if (0 <=? 0) && (0 <=? Z.of_nat (cap (MostUsed oneWord)))
     then Ok (mkConcordance (Counts oneWord) (Total oneWord) (Unique oneWord)
                (mkSlice (arr (MostUsed oneWord)) (Z.to_nat 0))
                (LengthHistogram oneWord))
     else Panic) /\
  (0 <= 0 <= Z.of_nat (slen (MostUsed oneWord)) ->
   (do c1 <- V2.TruncateTopWords 0 oneWord;
    V2.TruncateTopWords (Z.of_nat (slen (MostUsed oneWord))) c1) = Ok oneWord).
Proof.
  assert (Hwf : slice_wf (MostUsed oneWord)) by (unfold slice_wf, cap; simpl; lia).
  split; [exact Hwf|]. exact (TruncateTopWords_V2_exact 0 oneWord Hwf).
Defined.

(** ** Swapping two elements *)

Lemma Swap_lookup (s : list WordTuple) i j a b k :
  s !! i = Some a -> s !! j = Some b ->
  <[j:=a]> (<[i:=b]> s) !! k
  = s !! (if decide (k = i) then j else if decide (k = j) then i else k).
Proof.
  intros Ha Hb.
  pose proof (lookup_lt_Some _ _ _ Ha) as Hi. pose proof (lookup_lt_Some _ _ _ Hb) as Hj.
  rewrite !list_lookup_insert, length_insert.
  destruct (decide (k = i)) as [->|Hki].
  - destruct (decide (j = i ∧ (j < length s)%nat)) as [[-> _]|Hn].
    + done.
    + rewrite decide_True by done. done.
  - destruct (decide (k = j)) as [->|Hkj].
    + rewrite decide_True by done. done.
    + rewrite decide_False by (intros [? _]; congruence).
      rewrite decide_False by (intros [? _]; congruence). done.
Qed.

(** X18: [ByCount.Swap] panics when an index is out of range; otherwise it
    exchanges the two elements and leaves the others in place, so that the
    result is a permutation of the sequence, and swapping again restores
    it. *)
Theorem Swap_spec :
  (forall (s : list WordTuple) i j,
     (i < length s)%nat -> (j < length s)%nat ->
     exists s', V1.Swap s i j = Ok s' /\
       s' !! i = s !! j /\ s' !! j = s !! i /\
       (forall k, k <> i -> k <> j -> s' !! k = s !! k) /\
       s' ≡ₚ s /\
       V1.Swap s' i j = Ok s) /\
  (forall (s : list WordTuple) i j,
     (length s <= i)%nat \/ (length s <= j)%nat -> V1.Swap s i j = Panic).
Proof.
  split.
  - intros s i j Hi Hj.
    destruct (lookup_lt_is_Some_2 s i Hi) as [a Ha].
    destruct (lookup_lt_is_Some_2 s j Hj) as [b Hb].
    unfold V1.Swap. rewrite Ha, Hb. eexists. split; [reflexivity|].
    pose proof (Swap_lookup s i j a b) as Hl.
    split. { rewrite (Hl i Ha Hb). by rewrite decide_True. }
    split. { rewrite (Hl j Ha Hb). destruct (decide (j = i)) as [->|]; [done|].
             by rewrite decide_True. }
    split. { intros k Hki Hkj. rewrite (Hl k Ha Hb).
             by rewrite !decide_False by done. }
    split.
    { apply Permutation_inj. split; [by rewrite !length_insert|].
      exists (fun k => if decide (k = i) then j else if decide (k = j) then i else k).
      split; [|intros k; by apply Hl].
      intros x y. repeat case_decide; congruence. }
    rewrite (Hl i Ha Hb), (Hl j Ha Hb), decide_True by done.
    assert (Hji : s !! (if decide (j = i) then j else if decide (j = j) then i else j)
                  = Some a).
    { destruct (decide (j = i)) as [->|]; [done|]. by rewrite decide_True. }
    rewrite Hji, Hb. f_equal. apply list_eq. intros k.
    rewrite !list_lookup_insert, !length_insert.
    destruct (decide (j = k ∧ (j < length s)%nat)) as [[<- _]|Hn1]; [done|].
    destruct (decide (i = k ∧ (i < length s)%nat)) as [[<- _]|Hn2]; [done|].
    done.
  - intros s i j H. unfold V1.Swap.
    destruct H as [H|H].
    + by rewrite (lookup_ge_None_2 s i H).
    + rewrite (lookup_ge_None_2 s j H). by destruct (s !! i).
Qed.

Lemma Swap_spec_witness :
  exists s',
    V1.Swap [mkWordTuple "a" 1; mkWordTuple "b" 2; mkWordTuple "c" 3] 0 2 = Ok s' /\
    s' !! 0%nat = [mkWordTuple "a" 1; mkWordTuple "b" 2; mkWordTuple "c" 3] !! 2%nat /\
    s' !! 2%nat = [mkWordTuple "a" 1; mkWordTuple "b" 2; mkWordTuple "c" 3] !! 0%nat /\
    (forall k, k <> 0%nat -> k <> 2%nat ->
       s' !! k = [mkWordTuple "a" 1; mkWordTuple "b" 2; mkWordTuple "c" 3] !! k) /\
    s' ≡ₚ [mkWordTuple "a" 1; mkWordTuple "b" 2; mkWordTuple "c" 3] /\
    V1.Swap s' 0 2 = Ok [mkWordTuple "a" 1; mkWordTuple "b" 2; mkWordTuple "c" 3].
Proof.
  apply (proj1 Swap_spec [mkWordTuple "a" 1; mkWordTuple "b" 2; mkWordTuple "c" 3] 0%nat 2%nat);
    simpl; lia.
Defined.

(** ** What the parameters and the runtime leave unchanged *)



Lemma isAlpha_ascii c : isAlpha c = true -> isASCIIByte c = true.
Proof. destruct c as [[] [] [] [] [] [] [] []]; simpl; intros H; done. Qed.

(** X20: only ASCII letters count as alphabetic: a token without any ASCII
    byte, such as a word in a non-Latin script, scrubs to the empty word,
    and with case sensitivity it adds one to the total and nothing to the
    frequency map. *)
Theorem ScrubWord_non_ascii (rt : GoRuntime) (s : string) :
  allBytes (fun c => negb (isASCIIByte c)) s = true ->
  V1.ScrubWord s = Ok ""%string /\
  forall tokens,
    Z.of_nat (length (s :: tokens)) <= maxInt ->
    exists m total,
      V1.WordCount tokens true = Ok (m, total) /\
      V1.WordCount (s :: tokens) true = Ok (m, total + 1).
Proof.
  intros Hs.
  assert (Hscrub : V1.ScrubWord s = Ok ""%string).
  { apply ScrubWord_no_alpha. apply noAlpha_alphaAt. unfold noAlpha.
    clear -Hs. induction s as [|c s IH]; simpl in *; [done|].
    apply andb_true_iff in Hs as [Hc Hs]. rewrite (IH Hs), andb_true_r.
    destruct (isAlpha c) eqn:E; [|done].
    apply isAlpha_ascii in E. by rewrite E in Hc. }
  split; [done|]. intros tokens Hlen. cbn [length] in Hlen.
  destruct (WordCount_spec rt tokens true ltac:(lia)) as (m & total & Hr & Ht & _).
  destruct (WordCount_spec rt (s :: tokens) true Hlen) as (m' & total' & Hr' & Ht' & _).
  exists m, total. split; [done|]. rewrite Hr'. do 2 f_equal.
  - apply map_eq. intros w.
    rewrite (WordCount_lookup rt (s :: tokens) true m' total' w Hlen Hr').
    rewrite (WordCount_lookup rt tokens true m total w ltac:(lia) Hr).
    destruct (String.eqb_spec w "") as [->|Hne]; [done|]. f_equal.
    unfold countWord. rewrite filter_cons_False; [done|].
    unfold countsAs, V1.scanWord. rewrite Hscrub.
    destruct (String.eqb_spec "" w); [congruence|done].
  - rewrite Ht', Ht. cbn [length]. lia.
Qed.

Lemma ScrubWord_non_ascii_witness :
  allBytes (fun c => negb (isASCIIByte c)) eAcute = true /\
  V1.ScrubWord eAcute = Ok ""%string /\
  forall tokens,
    Z.of_nat (length (eAcute :: tokens)) <= maxInt ->
    exists m total,
      @V1.WordCount refRuntime tokens true = Ok (m, total) /\
      @V1.WordCount refRuntime (eAcute :: tokens) true = Ok (m, total + 1).
Proof.
  split; [reflexivity|]. apply (ScrubWord_non_ascii refRuntime eAcute). reflexivity.
Defined.

Lemma hist_determined (h1 h2 : list Z) :
  (forall k, slot h1 k = slot h2 k) ->
  (exists v, last h1 = Some v /\ 0 < v) \/ h1 = [0] ->
  (exists v, last h2 = Some v /\ 0 < v) \/ h2 = [0] ->
  h1 = h2.
Proof.
  assert (Hle : forall a b : list Z,
            (forall k, slot a k = slot b k) ->
            (exists v, last a = Some v /\ 0 < v) \/ a = [0] ->
            b <> [] -> (length a <= length b)%nat).
  { intros a b Hs [(v & Hl & Hv)| ->] Hb.
    - rewrite last_lookup in Hl. pose proof (lookup_lt_Some _ _ _ Hl) as Hlt.
      destruct (Nat.le_gt_cases (length a) (length b)) as [|Hgt]; [done|].
      specialize (Hs (pred (length a))). unfold slot in Hs.
      rewrite Hl, (lookup_ge_None_2 b) in Hs by lia. simpl in Hs. lia.
    - destruct b; [done|]. simpl. lia. }
  intros Hs H1 H2.
  assert (Hn1 : h1 <> []) by (destruct H1 as [(v & Hl & _)| ->]; [by intros ->|done]).
  assert (Hn2 : h2 <> []) by (destruct H2 as [(v & Hl & _)| ->]; [by intros ->|done]).
  pose proof (Hle h1 h2 Hs H1 Hn2).
  pose proof (Hle h2 h1 (fun k => eq_sym (Hs k)) H2 Hn1).
  apply list_eq. intros k. specialize (Hs k). unfold slot in Hs.
  destruct (Nat.lt_ge_cases k (length h1)) as [Hlt|Hge].
  - destruct (lookup_lt_is_Some_2 h1 k Hlt) as [x Hx].
    destruct (lookup_lt_is_Some_2 h2 k ltac:(lia)) as [y Hy].
    rewrite Hx, Hy in Hs |- *. simpl in Hs. by rewrite Hs.
  - by rewrite !lookup_ge_None_2 by lia.
Qed.

(** X21: the histogram is a function of the frequency map: two
    concordances with the same frequency map have the same histogram,
    whatever the runtime, the order in which the map was ranged over and
    the other parameters were. *)
Theorem histogram_determined (rt1 rt2 : GoRuntime) (tokens1 tokens2 : list string)
    (cs1 cs2 : bool) (n1 n2 : Z) (c1 c2 : Concordance) :
  Z.of_nat (length tokens1) <= maxInt ->
  Z.of_nat (length tokens2) <= maxInt ->
  @V1.NewConcordance rt1 tokens1 cs1 n1 = Ok c1 ->
  @V1.NewConcordance rt2 tokens2 cs2 n2 = Ok c2 ->
  Counts c1 = Counts c2 ->
  LengthHistogram c1 = LengthHistogram c2.
Proof.
  intros Hl1 Hl2 H1 H2 Hc.
  destruct (NewConcordance_V1_Ok rt1 _ _ _ _ Hl1 H1) as (_ & _ & _ & Hs1 & Hlast1 & _).
  destruct (NewConcordance_V1_Ok rt2 _ _ _ _ Hl2 H2) as (_ & _ & _ & Hs2 & Hlast2 & _).
  apply hist_determined; [|done|done].
  intros k. by rewrite Hs1, Hs2, Hc.
Qed.

Lemma histogram_determined_witness :
  match @V1.NewConcordance refRuntime sampleTokens false 2,
        @V1.NewConcordance refRuntime (reverse sampleTokens) true 0 with
  | Ok c1, Ok c2 =>
      Z.of_nat (length sampleTokens) <= maxInt /\
      Z.of_nat (length (reverse sampleTokens)) <= maxInt /\
      Counts c1 = Counts c2 /\
      LengthHistogram c1 = LengthHistogram c2
  | _, _ => False
  end.
Proof.
  assert (Hl1 : Z.of_nat (length sampleTokens) <= maxInt) by (vm_compute; discriminate).
  assert (Hl2 : Z.of_nat (length (reverse sampleTokens)) <= maxInt)
    by (vm_compute; discriminate).
  destruct (@V1.NewConcordance refRuntime sampleTokens false 2) as [c1| |] eqn:E1;
    [|vm_compute in E1; discriminate E1..].
  destruct (@V1.NewConcordance refRuntime (reverse sampleTokens) true 0)
    as [c2| |] eqn:E2; [|vm_compute in E2; discriminate E2..].
  assert (Hc : Counts c1 = Counts c2).
  { vm_compute in E1, E2. injection E1 as <-. injection E2 as <-. reflexivity. }
  split; [exact Hl1|]. split; [exact Hl2|]. split; [exact Hc|].
  exact (histogram_determined refRuntime refRuntime _ _ false true 2 0 c1 c2
           Hl1 Hl2 E1 E2 Hc).
Defined.
